(** * quixstreams: topic lifecycle manager and dataframe pipeline

    A shallow embedding of
    - [quixstreams/topic_manager.py] (the [TopicManager] class and its two
      module-level helpers),
    - [StreamingDataFrames/streamingdataframes/dataframe/dataframe.py]
      (the module-level [apply] step), and
    - [PythonClient/src/quixstreams/dataframes/dataframe/dataframe.py]
      ([StreamingDataFrame.apply], [_clone], [_apply], [process]),
    followed by the properties established about them.

    Python objects that are mutated in place and can be reached through
    more than one name (the [TopicManager] registries, the caller's
    [configs_to_import] set, pipelines) live in an explicit store that is
    threaded through every call; exceptions are values of [exn], and a
    raising call still hands back the store as it was when it raised. *)

From stdpp Require Import base gmap sets list strings.
From Stdlib Require Import ZArith.

Open Scope Z_scope.
Open Scope string_scope.

(** ** Insertion-ordered dictionaries

    A Python [dict] keeps its keys in insertion order, and assigning to
    an existing key keeps the key where it is.  [topics] and
    [changelog_topics] return the values in that order, so the
    registries are association lists with the update rule of [dict]. *)
Module odict.

Definition t (V : Type) : Type := list (string * V).

Definition empty {V} : t V := [].

(* d[k], [None] standing for KeyError *)
Fixpoint get {V} (k : string) (d : t V) : option V :=
  match d with
  | [] => None
  | (k', v) :: d' => if decide (k' = k) then Some v else get k d'
  end.

(* k in d *)
Definition mem {V} (k : string) (d : t V) : bool :=
  match get k d with Some _ => true | None => false end.

(* d[k] = v *)
Fixpoint set {V} (k : string) (v : V) (d : t V) : t V :=
  match d with
  | [] => [(k, v)]
  | (k', v') :: d' =>
      if decide (k' = k) then (k', v) :: d' else (k', v') :: set k v d'
  end.

Definition keys {V} (d : t V) : list string := d.*1.
Definition values {V} (d : t V) : list V := d.*2.

(* the representation invariant of a dict: no key occurs twice *)
Definition wf {V} (d : t V) : Prop := NoDup (keys d).

End odict.

(** ** Value objects: [TopicConfig] and [Topic] *)

Module TopicConfig.

Record t : Type := mk {
  name : string;
  num_partitions : Z;
  replication_factor : Z;
  extra_config : gmap string string;
}.

#[global] Instance eq_dec : EqDecision t.
Proof. solve_decision. Defined.

(** Modelled from the spec: the [TopicConfig] constructor of
    [models/topics], which is not among the sources.  The fields are
    those of section 3 of the specification; an [extra_config] that
    was not given ([None]) is the empty mapping. *)
Definition new (name : string) (num_partitions replication_factor : Z)
    (extra_config : option (gmap string string)) : t :=
  mk name num_partitions replication_factor (default ∅ extra_config).

(** Modelled from the spec: [TopicConfig.update_extra_config], which is
    not among the sources.  With [defaults], "defaults apply first,
    explicit keys win"; with [allowed], the extra settings are filtered
    "down to the allow-listed" set.  An argument that is not passed is
    [None] and has no effect. *)
Definition update_extra_config (defaults : option (gmap string string))
    (allowed : option (gset string)) (c : t) : t :=
  let with_defaults :=
    match defaults with
    | Some d => extra_config c ∪ d
    | None => extra_config c
    end in
  let restricted :=
    match allowed with
    | Some a => filter (λ kv, kv.1 ∈ a) with_defaults
    | None => with_defaults
    end in
  mk (name c) (num_partitions c) (replication_factor c) restricted.

(* actual.extra_config = e *)
Definition set_extra_config (e : gmap string string) (c : t) : t :=
  mk (name c) (num_partitions c) (replication_factor c) e.

End TopicConfig.

Module Topic.

(** Modelled from the spec: the [Topic] class of [models/topics], which
    is not among the sources: "identity (name) plus serialization roles
    plus an associated TopicConfig (nullable ...)".  A serializer
    selector is a string such as ["bytes"], or [None]. *)
Record t : Type := mk {
  name : string;
  value_serializer : option string;
  value_deserializer : option string;
  key_serializer : option string;
  key_deserializer : option string;
  topic_config : option TopicConfig.t;
}.

#[global] Instance eq_dec : EqDecision t.
Proof. solve_decision. Defined.

End Topic.

(** ** Exceptions *)

(* the values of the [issues] dict of [validate_topics] *)
Inductive issue : Type :=
  | TOPIC_MISSING
  | Mismatch (expected actual : TopicConfig.t).

(* the two messages a ValueError of these modules carries *)
Inductive value_error : Type :=
  | ConfigsWereNoneTypes (invalid : list string)
  | TopicListEmpty.

Inductive exn : Type :=
  | KeyError (key : string)
  | IndexError
  | AttributeError
  | ValueError (v : value_error)
  | TopicValidationError (issues : odict.t issue)
  | MissingTopicForChangelog (source_topic_name name : string)
  | InvalidApplyResultType.

Inductive result (A : Type) : Type :=
  | Ok (a : A)
  | Raise (e : exn).
Arguments Ok {A} a.
Arguments Raise {A} e.

(** ** The store *)

(** The administrative client is an external collaborator.
    [inspect_topics] answers with a mapping from each requested name to
    the broker's configuration of that topic, or to [None] when the
    broker has no such topic. *)
Record Admin : Type := {
  inspect_topics : list string → gmap string (option TopicConfig.t);
}.

(** A reference to a set object: the class attribute
    [_changelog_extra_config_imports_defaults] or a set owned by the
    caller. *)
Inductive set_ref : Type :=
  | ClassImportsDefaults
  | CallerSet (l : nat).

Record state : Type := mkState {
  _admin_client : Admin;
  _topics : odict.t Topic.t;
  _changelog_topics : odict.t (odict.t Topic.t);
  _create_timeout : Z;
  (* class attribute, a mutable set shared by every call *)
  _changelog_extra_config_imports_defaults : gset string;
  (* the set objects owned by callers *)
  caller_sets : gmap nat (gset string);
  (* the calls made to [Admin.create_topics], latest first *)
  admin_create_topics_calls : list (list TopicConfig.t * Z);
}.

(* class attributes that are never written *)
Definition _topic_partitions : Z := 2.
Definition _topic_replication : Z := 1.
Definition _topic_extra_config_defaults : gmap string string := ∅.
Definition _changelog_extra_config_defaults : gmap string string :=
  {[ "cleanup.policy" := "compact" ]}.

(* TopicManager.__init__; the class attribute starts at its literal *)
Definition init (admin_client : Admin) (create_timeout : Z) : state :=
  mkState admin_client odict.empty odict.empty create_timeout
    {[ "retention.bytes"; "retention.ms" ]} ∅ [].

(** ** The monad of calls: state passing with exceptions *)

Definition M (A : Type) : Type := state → result A * state.

Definition ret {A} (a : A) : M A := λ s, (Ok a, s).
Definition raise {A} (e : exn) : M A := λ s, (Raise e, s).
Definition bind {A B} (m : M A) (k : A → M B) : M B :=
  λ s, match m s with
       | (Ok a, s') => k a s'
       | (Raise e, s') => (Raise e, s')
       end.
Definition gets {A} (f : state → A) : M A := λ s, (Ok (f s), s).
Definition modify (f : state → state) : M unit := λ s, (Ok tt, f s).
Definition lift_option {A} (e : exn) (o : option A) : M A :=
  match o with Some a => ret a | None => raise e end.

Declare Scope py_scope.
Delimit Scope py_scope with py.
Notation "'let!' x ':=' m 'in' k" := (bind m (λ x, k))
  (at level 10, x binder, m at level 100, k at level 200) : py_scope.
Open Scope py_scope.

(** ** [topic_manager.py]: module-level helpers *)

(** The objects [dict_values] walks: nested dicts whose leaves are
    topics (or lists of topics). *)
#[warnings="-register-all"] Inductive obj : Type :=
  | OTopic (t : Topic.t)
  | OList (l : list Topic.t)
  | ODict (d : list (string * obj)).

(* truthiness: an empty dict or list is falsy, a [Topic] instance is not *)
Definition truthy (d : obj) : bool :=
  match d with
  | OTopic _ => true
  | OList l => match l with [] => false | _ => true end
  | ODict d => match d with [] => false | _ => true end
  end.

Fixpoint dict_values (d : obj) : list Topic.t :=
  if truthy d then
    match d with
    | ODict kvs =>
        (fix go (kvs : list (string * obj)) : list Topic.t :=
           match kvs with
           | [] => []
           | (_, v) :: kvs' => (dict_values v ++ go kvs')%list
           end) kvs
    | OList l => l
    | OTopic t => [t]
    end
  else [].

Definition obj_of_topics (d : odict.t Topic.t) : obj :=
  ODict (prod_map id OTopic <$> d).

Definition obj_of_changelog_topics (d : odict.t (odict.t Topic.t)) : obj :=
  ODict (prod_map id obj_of_topics <$> d).

(** [topics: Union[List[Topic], List[TopicConfig]]] *)
Inductive topic_list : Type :=
  | Topics (l : list Topic.t)
  | TopicConfigs (l : list TopicConfig.t).

Definition topic_list_names (topics : topic_list) : list string :=
  match topics with
  | Topics l => Topic.name <$> l
  | TopicConfigs l => TopicConfig.name <$> l
  end.

(* [topics[0]] raises IndexError on an empty list; [not topic.topic_config]
   holds exactly for [None], a [TopicConfig] instance being truthy *)
Definition get_topic_configs (topics : topic_list) : result (list TopicConfig.t) :=
  match topics with
  | Topics [] | TopicConfigs [] => Raise IndexError
  | Topics l =>
      let invalid :=
        Topic.name <$> filter (λ t, Topic.topic_config t = None) l in
      match invalid with
      | _ :: _ => Raise (ValueError (ConfigsWereNoneTypes invalid))
      | [] => Ok (omap Topic.topic_config l)
      end
  | TopicConfigs l => Ok l
  end.

Definition lift_result {A} (r : result A) : M A := λ s, (r, s).

(** ** [topic_manager.py]: the [TopicManager] class *)

(* [x or d] on an optional integer: [None] and [0] are falsy *)
Definition or_default (x : option Z) (d : Z) : Z :=
  match x with
  | Some n => if decide (n = 0) then d else n
  | None => d
  end.

Definition topics (s : state) : list Topic.t :=
  dict_values (obj_of_topics (_topics s)).

Definition changelog_topics (s : state) : list Topic.t :=
  dict_values (obj_of_changelog_topics (_changelog_topics s)).

Definition all_topic_configs : M (list TopicConfig.t) :=
  let! ts := gets topics in
  let! cs := gets changelog_topics in
  lift_result (get_topic_configs (Topics (ts ++ cs)%list)).

Definition _topic_config_with_defaults (name : string)
    (num_partitions replication_factor : option Z)
    (extra_config extra_config_defaults : option (gmap string string))
    : TopicConfig.t :=
  let topic_config :=
    TopicConfig.new name
      (or_default num_partitions _topic_partitions)
      (or_default replication_factor _topic_replication)
      extra_config in
  let extra_config_defaults :=
    match extra_config_defaults with
    | None => _topic_extra_config_defaults
    | Some d => d
    end in
  TopicConfig.update_extra_config (Some extra_config_defaults) None topic_config.

Definition topic_config (name : string)
    (num_partitions replication_factor : option Z)
    (extra_config : option (gmap string string)) : TopicConfig.t :=
  _topic_config_with_defaults name num_partitions replication_factor
    extra_config None.

Definition _apply_topic_prefix (name : string) : string := name.

(* self._admin_client.create_topics(topics, timeout=self._create_timeout) *)
Definition _create_topics (topics : list TopicConfig.t) : M unit :=
  modify (λ s,
    mkState (_admin_client s) (_topics s) (_changelog_topics s)
      (_create_timeout s) (_changelog_extra_config_imports_defaults s)
      (caller_sets s)
      ((topics, _create_timeout s) :: admin_create_topics_calls s)).

Definition create_topics (topics : topic_list) : M unit :=
  let! configs := lift_result (get_topic_configs topics) in
  _create_topics configs.

Definition create_all_topics : M unit :=
  let! configs := all_topic_configs in
  _create_topics configs.

Definition _process_topic_configs (name : string)
    (topic_config : option TopicConfig.t)
    (extra_config_defaults : option (gmap string string))
    (auto_create_config : bool) : option TopicConfig.t :=
  match topic_config with
  | Some c =>
      Some (_topic_config_with_defaults name
              (Some (TopicConfig.num_partitions c))
              (Some (TopicConfig.replication_factor c))
              (Some (TopicConfig.extra_config c))
              extra_config_defaults)
  | None =>
      if negb auto_create_config then None
      else Some (_topic_config_with_defaults name None None None
                   extra_config_defaults)
  end.

Definition set_topics (f : odict.t Topic.t → odict.t Topic.t) (s : state) : state :=
  mkState (_admin_client s) (f (_topics s)) (_changelog_topics s)
    (_create_timeout s) (_changelog_extra_config_imports_defaults s)
    (caller_sets s) (admin_create_topics_calls s).

Definition topic (name : string)
    (value_deserializer key_deserializer value_serializer key_serializer
       : option string)
    (topic_config : option TopicConfig.t) (auto_create_config : bool)
    : M Topic.t :=
  let name := _apply_topic_prefix name in
  let topic :=
    Topic.mk name value_serializer value_deserializer key_serializer
      key_deserializer
      (_process_topic_configs name topic_config None auto_create_config) in
  let! _ := modify (set_topics (odict.set name topic)) in
  ret topic.

Definition _format_changelog_name
    (consumer_group source_topic_name suffix : string) : string :=
  "changelog__" +:+ consumer_group +:+ "--" +:+ source_topic_name
    +:+ "--" +:+ suffix.

Inductive validation_level : Type :=
  | Level_exists
  | Level_required
  | Level_all.

#[global] Instance validation_level_eq_dec : EqDecision validation_level.
Proof. solve_decision. Defined.

(** One turn of the [for topic in get_topic_configs(topics)] loop of
    [validate_topics].  The loop variables are the response of the admin
    client, whose [TopicConfig] objects the loop edits in place, and the
    [issues] dict. *)
Definition validate_topic (exists_only extras : bool)
    (acc : gmap string (option TopicConfig.t) * odict.t issue)
    (topic : TopicConfig.t)
    : result (gmap string (option TopicConfig.t) * odict.t issue) :=
  let '(actual_configs, issues) := acc in
  let name := TopicConfig.name topic in
  (* actual = actual_configs[topic.name] *)
  match actual_configs !! name with
  | None => Raise (KeyError name)
  | Some actual =>
      (* if topic.name in actual_configs: *)
      if bool_decide (name ∈ dom actual_configs) then
        if negb exists_only then
          match actual with
          | None => Raise AttributeError
          | Some actual =>
              let actual :=
                if extras then
                  TopicConfig.update_extra_config None
                    (Some (dom (TopicConfig.extra_config topic))) actual
                else
                  TopicConfig.set_extra_config
                    (TopicConfig.extra_config topic) actual in
              let actual_configs := <[name := Some actual]> actual_configs in
              if bool_decide (topic ≠ actual) then
                Ok (actual_configs,
                    odict.set name (Mismatch topic actual) issues)
              else Ok (actual_configs, issues)
          end
        else Ok (actual_configs, issues)
      else Ok (actual_configs, odict.set name TOPIC_MISSING issues)
  end.

Fixpoint validate_loop (exists_only extras : bool)
    (acc : gmap string (option TopicConfig.t) * odict.t issue)
    (topics : list TopicConfig.t)
    : result (gmap string (option TopicConfig.t) * odict.t issue) :=
  match topics with
  | [] => Ok acc
  | topic :: topics' =>
      match validate_topic exists_only extras acc topic with
      | Ok acc' => validate_loop exists_only extras acc' topics'
      | Raise e => Raise e
      end
  end.

Definition validate_topics (topics : topic_list)
    (validation_level : option validation_level) : M unit :=
  match validation_level with
  | None => ret tt
  | Some level =>
      let exists_only := bool_decide (level = Level_exists) in
      let extras := bool_decide (level = Level_all) in
      let issues : odict.t issue := odict.empty in
      let! admin := gets _admin_client in
      let actual_configs := inspect_topics admin (topic_list_names topics) in
      let! configs := lift_result (get_topic_configs topics) in
      let! '(_, issues) :=
        lift_result
          (validate_loop exists_only extras (actual_configs, issues) configs) in
      match issues with
      | _ :: _ => raise (TopicValidationError issues)
      | [] => ret tt
      end
  end.

Definition validate_all_topics (validation_level : option validation_level)
    : M unit :=
  let! configs := all_topic_configs in
  validate_topics (TopicConfigs configs) validation_level.

(* the set object a reference points to *)
Definition read_set (r : set_ref) (s : state) : gset string :=
  match r with
  | ClassImportsDefaults => _changelog_extra_config_imports_defaults s
  | CallerSet l => caller_sets s !!! l
  end.

(* r.discard(x), in place *)
Definition discard (r : set_ref) (x : string) : M unit :=
  modify (λ s,
    match r with
    | ClassImportsDefaults =>
        mkState (_admin_client s) (_topics s) (_changelog_topics s)
          (_create_timeout s)
          (_changelog_extra_config_imports_defaults s ∖ {[ x ]})
          (caller_sets s) (admin_create_topics_calls s)
    | CallerSet l =>
        mkState (_admin_client s) (_topics s) (_changelog_topics s)
          (_create_timeout s) (_changelog_extra_config_imports_defaults s)
          (alter (λ S, S ∖ {[ x ]}) l (caller_sets s))
          (admin_create_topics_calls s)
    end).

(* self._changelog_topics.setdefault(source_topic_name, {})[suffix] = topic *)
Definition register_changelog (source_topic_name suffix : string)
    (topic : Topic.t) (s : state) : state :=
  let inner :=
    default odict.empty (odict.get source_topic_name (_changelog_topics s)) in
  mkState (_admin_client s) (_topics s)
    (odict.set source_topic_name (odict.set suffix topic inner)
       (_changelog_topics s))
    (_create_timeout s) (_changelog_extra_config_imports_defaults s)
    (caller_sets s) (admin_create_topics_calls s).

(** The base configuration of a changelog topic:
    [inspect_topics([source_topic_name])[source_topic_name]
       or self._topics[source_topic_name].topic_config].
    The second component is the registered [Topic] when the
    configuration is that topic's own configuration object. *)
Definition source_topic_config (source_topic_name : string)
    : M (option TopicConfig.t * option Topic.t) :=
  let! admin := gets _admin_client in
  let! inspected :=
    lift_option (KeyError source_topic_name)
      (inspect_topics admin [source_topic_name] !! source_topic_name) in
  match inspected with
  | Some c => ret (Some c, None)
  | None =>
      let! registry := gets _topics in
      let! t :=
        lift_option (KeyError source_topic_name)
          (odict.get source_topic_name registry) in
      ret (Topic.topic_config t, Some t)
  end.

(* the set object [configs_to_import] names after the [if not ...] *)
Definition imports_ref (configs_to_import : option nat) (s : state) : set_ref :=
  match configs_to_import with
  | Some l =>
      if decide (read_set (CallerSet l) s = ∅) then ClassImportsDefaults
      else CallerSet l
  | None => ClassImportsDefaults
  end.

(** [configs_to_import] is [None] or a reference to a set object of the
    caller.  When the base configuration is the registered topic's own,
    [update_extra_config] edits that object, so the edit is written
    back to [_topics]. *)
Definition changelog_topic (source_topic_name suffix consumer_group : string)
    (configs_to_import : option nat) : M Topic.t :=
  let name :=
    _format_changelog_name consumer_group source_topic_name suffix in
  let! configs_to_import := gets (imports_ref configs_to_import) in
  let! _ := discard configs_to_import "cleanup.policy" in
  let! '(topic_config, registered) := source_topic_config source_topic_name in
  match topic_config with
  | None => raise (MissingTopicForChangelog source_topic_name name)
  | Some topic_config =>
      let! allowed := gets (read_set configs_to_import) in
      let topic_config :=
        TopicConfig.update_extra_config None (Some allowed) topic_config in
      let! _ :=
        match registered with
        | Some t =>
            modify (set_topics (odict.set source_topic_name
              (Topic.mk (Topic.name t) (Topic.value_serializer t)
                 (Topic.value_deserializer t) (Topic.key_serializer t)
                 (Topic.key_deserializer t) (Some topic_config))))
        | None => ret tt
        end in
      let topic :=
        Topic.mk name (Some "bytes") (Some "bytes") (Some "bytes")
          (Some "bytes")
          (_process_topic_configs name (Some topic_config)
             (Some _changelog_extra_config_defaults) true) in
      let! _ := modify (register_changelog source_topic_name suffix topic) in
      ret topic
  end.

(** ** Records and step outcomes of the dataframe pipeline *)

(** The values a record carries and a user function returns. *)
#[warnings="-register-all"] Inductive pyval : Type :=
  | PNone
  | PBool (b : bool)
  | PInt (z : Z)
  | PStr (s : string)
  | PList (l : list pyval)
  | PDict (d : list (string * pyval)).

(* v is None, isinstance(v, dict) and isinstance(v, list) *)
Definition is_none (v : pyval) : bool :=
  match v with PNone => true | _ => false end.
Definition is_dict (v : pyval) : bool :=
  match v with PDict _ => true | _ => false end.
Definition is_list (v : pyval) : bool :=
  match v with PList _ => true | _ => false end.

Module Row.

(** Modelled from the spec: the [Row] class of [models], which is not
    among the sources: a [value] plus the provenance metadata [key],
    [timestamp], [headers], [topic], [partition], [offset]. *)
Record t : Type := mk {
  value : pyval;
  key : pyval;
  timestamp : Z;
  headers : pyval;
  topic : string;
  partition : Z;
  offset : Z;
}.

(* row.value = v *)
Definition set_value (v : pyval) (row : t) : t :=
  mk v (key row) (timestamp row) (headers row) (topic row) (partition row)
    (offset row).

(** Modelled from the spec: [Row.clone(value=v)], a copy of the record
    with the given override, "provenance fields are carried through". *)
Definition clone (v : pyval) (row : t) : t := set_value v row.

End Row.

(** What a step hands back: a record, a list of records, or [None]. *)
Inductive outcome : Type :=
  | Absent
  | One (row : Row.t)
  | Many (rows : list Row.t).

(** A user function receives [row.value].  It returns a value and may
    have edited its argument in place: the second component is the
    argument object as the call left it. *)
Definition user_func : Type := pyval → pyval * pyval.

(** ** [StreamingDataFrames/.../dataframe.py]: the [apply] step *)
Module streamingdataframes.

Definition apply (row : Row.t) (func : user_func) (expand : bool)
    : result outcome :=
  let '(result, value) := func (Row.value row) in
  let row := Row.set_value value row in
  if is_none result && is_dict (Row.value row) then
    Ok (One row)
  else
    match result with
    | PDict _ => Ok (One (Row.set_value result row))
    | PList l =>
        if expand then Ok (Many ((λ r, Row.clone r row) <$> l))
        else Raise InvalidApplyResultType
    | _ => Raise InvalidApplyResultType
    end.

(* the step [StreamingDataFrame.apply(func, expand)] appends:
   lambda row: apply(row, func, expand=expand) *)
Definition apply_step (func : user_func) (expand : bool)
    : Row.t → result outcome :=
  λ row, apply row func expand.

End streamingdataframes.

(** ** Pipelines *)
Module Pipeline.

Definition step : Type := Row.t → result outcome.

(** Pipelines are objects with identity: a dataframe holds a reference
    to its pipeline, and [apply] edits the pipeline in place.  The store
    maps each live reference to the steps of that pipeline, in order. *)
Abbreviation store := (gmap nat (list step)).

(** Modelled from the spec: [Pipeline.apply] of [pipeline.py], which is
    not among the sources: "appends a unary transform to the chain"
    and "mutates pipeline state in place". *)
Definition apply (p : nat) (func : step) (σ : store) : store :=
  alter (λ steps, steps ++ [func])%list p σ.

(** Modelled from the spec: [Pipeline.clone] of [pipeline.py], which is
    not among the sources: "an independent sequence object that
    initially shares the same steps".  The new pipeline gets a
    reference that is not in use. *)
Definition clone (p : nat) (σ : store) : nat * store :=
  let q := fresh (dom σ) in
  (q, <[q := σ !!! p]> σ).

(** Modelled from the spec: the records a branch member contributes
    when "results are flattened": none for [Absent], the record, or the
    records of a list. *)
Definition rows_of (o : outcome) : list Row.t :=
  match o with
  | Absent => []
  | One row => [row]
  | Many rows => rows
  end.

(** Modelled from the spec: the flattening of the branch results, "depth
    first, left to right"; the first exception propagates. *)
Fixpoint flatten (os : list (result outcome)) : result (list Row.t) :=
  match os with
  | [] => Ok []
  | Raise e :: _ => Raise e
  | Ok o :: os' =>
      match flatten os' with
      | Ok rows => Ok (rows_of o ++ rows)%list
      | Raise e => Raise e
      end
  end.

(** Modelled from the spec: [Pipeline.process] of [pipeline.py], which
    is not among the sources.  The record is folded through the steps
    in order; [Absent] stops the fold; a list branches, each element
    going through the remaining steps, the results flattened in order;
    an exception of a step propagates. *)
Fixpoint process_steps (steps : list step) (row : Row.t) : result outcome :=
  match steps with
  | [] => Ok (One row)
  | func :: steps' =>
      match func row with
      | Raise e => Raise e
      | Ok Absent => Ok Absent
      | Ok (One row') => process_steps steps' row'
      | Ok (Many rows) =>
          match flatten (process_steps steps' <$> rows) with
          | Ok rows' => Ok (Many rows')
          | Raise e => Raise e
          end
      end
  end.

Definition process (p : nat) (row : Row.t) (σ : store) : result outcome :=
  process_steps (σ !!! p) row.

(** Modelled from the spec: the constructor [Pipeline()] of
    [pipeline.py], which is not among the sources: a new pipeline
    without steps, at a reference that is not in use. *)
Definition new (σ : store) : nat * store :=
  let q := fresh (dom σ) in
  (q, <[q := []]> σ).

End Pipeline.

(** ** [PythonClient/.../dataframe.py]: [StreamingDataFrame] *)
Module StreamingDataFrame.

Record t : Type := mk {
  name : string;
  _pipeline : nat;
  _topics : odict.t Topic.t;
}.

(* {t.name: t for t in topics} *)
Definition topics_by_name (topics : list Topic.t) : odict.t Topic.t :=
  foldl (λ d t, odict.set (Topic.name t) t d) odict.empty topics.

(** [__init__].  [uuid] is the string [uuid.uuid4()] yields at this
    call; it is used when no [name] is given.  The pipeline is the one
    passed in, or a new one; the check of [topics] comes last. *)
Definition init (uuid : string) (topics : list Topic.t) (name : option string)
    (_pipeline : option nat) (σ : Pipeline.store)
    : result t * Pipeline.store :=
  let name :=
    match name with
    | Some n => if decide (n = EmptyString) then uuid else n
    | None => uuid
    end in
  let '(p, σ) :=
    match _pipeline with
    | Some p => (p, σ)
    | None => Pipeline.new σ
    end in
  match topics with
  | [] => (Raise (ValueError TopicListEmpty), σ)
  | _ => (Ok (mk name p (topics_by_name topics)), σ)
  end.

Definition _clone (uuid : string) (self : t) (σ : Pipeline.store)
    : result t * Pipeline.store :=
  let '(q, σ) := Pipeline.clone (_pipeline self) σ in
  init uuid (odict.values (_topics self)) None (Some q) σ.

Definition _apply (func : Pipeline.step) (self : t) (σ : Pipeline.store)
    : t * Pipeline.store :=
  (self, Pipeline.apply (_pipeline self) func σ).

Definition apply (uuid : string) (func : Pipeline.step) (self : t)
    (σ : Pipeline.store) : result t * Pipeline.store :=
  match _clone uuid self σ with
  | (Ok df, σ) => let '(df, σ) := _apply func df σ in (Ok df, σ)
  | (Raise e, σ) => (Raise e, σ)
  end.

Definition process (self : t) (row : Row.t) (σ : Pipeline.store)
    : result outcome :=
  Pipeline.process (_pipeline self) row σ.

End StreamingDataFrame.

(** ** Auxiliary definitions of the properties *)

(* the changelog topic [changelog_topic] builds from the base
   configuration [c] and the import set [allowed] *)
Definition changelog_of (name : string) (allowed : gset string)
    (c : TopicConfig.t) : Topic.t :=
  Topic.mk name (Some "bytes") (Some "bytes") (Some "bytes") (Some "bytes")
    (_process_topic_configs name
       (Some (TopicConfig.update_extra_config None (Some allowed) c))
       (Some _changelog_extra_config_defaults) true).

(** The registry [_topics] as [topic] and [changelog_topic] leave it:
    a dict, each topic stored under its own name. *)
Definition registry_ok (d : odict.t Topic.t) : Prop :=
  odict.wf d ∧ Forall (λ kt, Topic.name kt.2 = kt.1) d.

(* the registered topics called [name] *)
Definition topics_named (name : string) (s : state) : list Topic.t :=
  filter (λ t, Topic.name t = name) (topics s).

(* a call ended in a TopicValidationError with an entry for [name] *)
Definition records_issue {A} (r : result A) (name : string) : Prop :=
  ∃ issues, r = Raise (TopicValidationError issues)
            ∧ is_Some (odict.get name issues).

(** Brokers for the examples: one without any topic, and one whose
    only topic has the configuration [c]. *)
Definition broker_without_topics : Admin :=
  {| inspect_topics := λ names, list_to_map ((λ n, (n, None)) <$> names) |}.

Definition broker_with (c : TopicConfig.t) : Admin :=
  {| inspect_topics := λ names,
       list_to_map
         ((λ n, (n, if decide (n = TopicConfig.name c) then Some c else None))
            <$> names) |}.

Definition orders_expected : TopicConfig.t :=
  TopicConfig.mk "orders" 3 1 {[ "retention.ms" := "1" ]}.

Definition orders_actual : TopicConfig.t :=
  TopicConfig.mk "orders" 3 1 {[ "retention.ms" := "1"; "foo" := "bar" ]}.

Definition orders_actual_changed : TopicConfig.t :=
  TopicConfig.mk "orders" 3 1 {[ "retention.ms" := "2" ]}.

(** Inputs of the examples. *)
Definition orders_with_delete_policy : TopicConfig.t :=
  TopicConfig.mk "orders" 3 1
    {[ "cleanup.policy" := "delete"; "retention.ms" := "1" ]}.

Definition imports_with_cleanup_policy : gset string :=
  {[ "cleanup.policy"; "retention.ms" ]}.

(* a manager next to which the caller holds the set [S] at reference 0 *)
Definition manager_with_caller_set (admin_client : Admin) (S : gset string)
    : state :=
  mkState admin_client odict.empty odict.empty 60
    {[ "retention.bytes"; "retention.ms" ]} {[ 0%nat := S ]} [].

(* a manager on which [topic("ext", auto_create_config=False)] was called *)
Definition manager_with_external_topic : state :=
  (topic "ext" None (Some "bytes") None (Some "bytes") None false
     (init broker_without_topics 60)).2.

Definition sample_row : Row.t :=
  Row.mk (PDict [("x", PInt 1)]) (PStr "k") 0 PNone "orders" 0 7.

(* a user function that adds a field in place and returns two mappings *)
Definition sample_func : user_func :=
  λ v, (PList [PDict [("a", PInt 1)]; PDict [("a", PInt 2)]],
        match v with
        | PDict d => PDict (d ++ [("seen", PBool true)])%list
        | _ => v
        end).


(** ** Further auxiliary definitions *)

(* the caller rebinds or edits its own set objects between two calls *)
Definition set_caller_sets (sets : gmap nat (gset string)) (s : state)
    : state :=
  mkState (_admin_client s) (_topics s) (_changelog_topics s)
    (_create_timeout s) (_changelog_extra_config_imports_defaults s)
    sets (admin_create_topics_calls s).

(** The states of a manager a program can reach: it is constructed,
    then its public methods are called in any order and with any
    arguments, whatever each call returns or raises; in between, the
    caller may do what it likes with its own set objects. *)
Inductive reachable : state → Prop :=
  | reachable_init admin_client create_timeout :
      reachable (init admin_client create_timeout)
  | reachable_caller_sets sets s :
      reachable s → reachable (set_caller_sets sets s)
  | reachable_topic name vd kd vs ks c a s :
      reachable s → reachable (topic name vd kd vs ks c a s).2
  | reachable_changelog_topic source suffix group cfgs s :
      reachable s → reachable (changelog_topic source suffix group cfgs s).2
  | reachable_create_topics ts s :
      reachable s → reachable (create_topics ts s).2
  | reachable_create_all_topics s :
      reachable s → reachable (create_all_topics s).2
  | reachable_validate_topics ts level s :
      reachable s → reachable (validate_topics ts level s).2
  | reachable_validate_all_topics level s :
      reachable s → reachable (validate_all_topics level s).2.

(* self._changelog_topics[source_topic_name][suffix], when present *)
Definition changelog_lookup (source_topic_name suffix : string) (s : state)
    : option Topic.t :=
  odict.get source_topic_name (_changelog_topics s) ≫= odict.get suffix.

(* the registered source topic after [update_extra_config(allowed=...)]
   was called on its configuration *)
Definition with_restricted_config (allowed : gset string) (t : Topic.t)
    : Topic.t :=
  Topic.mk (Topic.name t) (Topic.value_serializer t)
    (Topic.value_deserializer t) (Topic.key_serializer t)
    (Topic.key_deserializer t)
    (TopicConfig.update_extra_config None (Some allowed)
       <$> Topic.topic_config t).

(* the import set a call of [changelog_topic] ends up using *)
Definition imports_used (configs_to_import : option nat) (s : state)
    : gset string :=
  read_set (imports_ref configs_to_import s) s ∖ {[ "cleanup.policy" ]}.

(** What one turn of the validation loop makes of the broker's
    configuration [actual] of the expected [topic], at a level other
    than ["exists"], and the issue it records, if any. *)
Definition adjusted (level : validation_level)
    (topic actual : TopicConfig.t) : TopicConfig.t :=
  if bool_decide (level = Level_all) then
    TopicConfig.update_extra_config None
      (Some (dom (TopicConfig.extra_config topic))) actual
  else
    TopicConfig.set_extra_config (TopicConfig.extra_config topic) actual.

Definition issue_of (level : validation_level)
    (actual_configs : gmap string (option TopicConfig.t))
    (topic : TopicConfig.t) : option (string * issue) :=
  match actual_configs !! TopicConfig.name topic with
  | Some (Some actual) =>
      if bool_decide (topic ≠ adjusted level topic actual) then
        Some (TopicConfig.name topic,
              Mismatch topic (adjusted level topic actual))
      else None
  | _ => None
  end.

(* the records an outcome holds *)
Definition outcome_rows (o : outcome) : list Row.t :=
  match o with
  | Absent => []
  | One row => [row]
  | Many rows => rows
  end.

(* two records with the same provenance metadata: key, timestamp,
   headers, topic, partition and offset, every field but the value *)
Definition same_provenance (r r' : Row.t) : Prop :=
  let 'Row.mk _ k ts h tp pt off := r in
  let 'Row.mk _ k' ts' h' tp' pt' off' := r' in
  k' = k ∧ ts' = ts ∧ h' = h ∧ tp' = tp ∧ pt' = pt ∧ off' = off.

(* a user function that returns [None] without touching its argument *)
Definition none_func : user_func := λ v, (PNone, v).

Definition scalar_row : Row.t :=
  Row.mk (PInt 5) (PStr "k") 0 PNone "orders" 0 7.

(* a source topic declared with a setting outside the import set *)
Definition orders_declared : TopicConfig.t :=
  TopicConfig.mk "orders" 3 1
    {[ "max.message.bytes" := "1024"; "retention.ms" := "1" ]}.

Definition manager_with_orders : state :=
  (topic "orders" None (Some "bytes") None (Some "bytes")
     (Some orders_declared) true (init broker_without_topics 60)).2.

Definition payments_expected : TopicConfig.t :=
  TopicConfig.mk "payments" 6 1 ∅.

(* a broker that knows "orders" with 3 partitions and "payments"
   with 4 *)
Definition broker_with_two : Admin :=
  {| inspect_topics := λ names,
       list_to_map
         ((λ n, (n,
                 if decide (n = "orders") then Some orders_actual
                 else if decide (n = "payments") then
                        Some (TopicConfig.mk "payments" 4 1 ∅)
                 else None)) <$> names) |}.

(** ** [StreamingDataFrames/.../models/types.py]: [SlottedClass] *)
Module SlottedClass.

Section with_values.

(** The attribute values, with Python's [None] and its [!=]. *)
Context {V : Type} (none : V) (ne : V → V → bool).

(** An instance: the [__slots__] of its class and the attributes that
    were assigned. *)
Record t : Type := mk {
  __slots__ : list string;
  attrs : gmap string V;
}.

(* self.__getattribute__(item), None on AttributeError *)
Definition eq_get_attr (self : t) (item : string) : V :=
  match attrs self !! item with
  | Some v => v
  | None => none
  end.

Fixpoint eq_slots (self other : t) (slots : list string) : bool :=
  match slots with
  | [] => true
  | p :: slots' =>
      if ne (eq_get_attr self p) (eq_get_attr other p) then false
      else eq_slots self other slots'
  end.

Definition __eq__ (self other : t) : bool :=
  eq_slots self other (__slots__ self).

End with_values.

End SlottedClass.

(** ** [PythonClient/.../state/statevalue.py]: [StateValue] *)
Module StateValue.

(** Modelled from the spec: the enum [StateType] of [statetype.py],
    which is not among the sources; the members are the six the source
    names, the kinds of boxed value of section 6 of the
    specification. *)
Inductive StateType : Type :=
  | String
  | Long
  | Double
  | Bool
  | Binary
  | Object.

(* the failures of the constructor; the last two are raised by
   [pickle] *)
Inductive error : Type :=
  | PyIndexError
  | PyException (message : string)
  | PyUnpicklingError
  | PyPicklingError.

Section with_native.

(** Floats, arbitrary objects and native pointers are opaque here. *)
Context {pyfloat pyobject ptr : Type}.

(** What can be passed to the constructor: a [StateValue] (with its
    native pointer, type and value), a native pointer, or a plain
    value.  A [bool] is an [int] for [isinstance]; [PyObject] stands
    for every value of another type. *)
#[warnings="-register-all"] Inductive pyvalue : Type :=
  | PyStateValue (interop : ptr) (type : StateType) (value : pyvalue)
  | PyPointer (p : ptr)
  | PyStr (s : string)
  | PyBool (b : bool)
  | PyInt (z : Z)
  | PyFloat (f : pyfloat)
  | PyBytes (b : list Byte.byte)
  | PyByteArray (b : list Byte.byte)
  | PyObject (o : pyobject).

(** The native library and [pickle], external collaborators.  The
    constructors receive the Python value they are called with
    ([Constructor3] the value that [WriteBytes] is given).  [get_Type]
    is the native type tag after [enum_to_another], [None] when it is
    none of the six; [pickle_dumps] and [pickle_loads] are [None] where
    [pickle.dumps] and [pickle.loads] raise. *)
Record Native : Type := {
  Constructor : pyvalue → ptr;
  Constructor2 : pyvalue → ptr;
  Constructor3 : pyvalue → ptr;
  Constructor4 : list Byte.byte → StateType → ptr;
  Constructor5 : pyvalue → ptr;
  Constructor6 : pyvalue → ptr;
  get_Type : ptr → option StateType;
  get_StringValue : ptr → string;
  get_BinaryValue : ptr → list Byte.byte;
  get_BoolValue : ptr → bool;
  get_LongValue : ptr → Z;
  get_DoubleValue : ptr → pyfloat;
  pickle_dumps : pyvalue → option (list Byte.byte);
  pickle_loads : list Byte.byte → option pyvalue;
}.

Context (native : Native).

Record t : Type := mk {
  _interop : ptr;
  _type : StateType;
  _value : pyvalue;
}.

(* a StateValue as an argument of the constructor *)
Definition as_value (sv : t) : pyvalue :=
  PyStateValue (_interop sv) (_type sv) (_value sv).

(* isinstance(value, str), and so on; a bool is an instance of int *)
Definition isinstance_str (v : pyvalue) : bool :=
  match v with PyStr _ => true | _ => false end.
Definition isinstance_int (v : pyvalue) : bool :=
  match v with PyInt _ | PyBool _ => true | _ => false end.
Definition isinstance_float (v : pyvalue) : bool :=
  match v with PyFloat _ => true | _ => false end.
Definition isinstance_bool (v : pyvalue) : bool :=
  match v with PyBool _ => true | _ => false end.

(* value_type == bytes, value_type == bytearray *)
Definition type_is_bytes (v : pyvalue) : bool :=
  match v with PyBytes _ => true | _ => false end.
Definition type_is_bytearray (v : pyvalue) : bool :=
  match v with PyByteArray _ => true | _ => false end.

(* bytes(value) *)
Definition to_bytes (v : pyvalue) : pyvalue :=
  match v with PyByteArray b => PyBytes b | _ => v end.

(* obj_bytes[0] and obj_bytes[-1] *)
Definition first_byte (b : list Byte.byte) : option N :=
  Byte.to_N <$> head b.
Definition last_byte (b : list Byte.byte) : option N :=
  Byte.to_N <$> last b.

(* the last branch of the constructor: a value that is neither a
   StateValue nor a native pointer *)
Definition init_value (value : pyvalue) : error + t :=
  if isinstance_str value then
    inr (mk (Constructor5 native value) String value)
  else if isinstance_int value then
    inr (mk (Constructor2 native value) Long value)
  else if isinstance_float value then
    inr (mk (Constructor6 native value) Double value)
  else if isinstance_bool value then
    inr (mk (Constructor native value) Bool value)
  else if type_is_bytes value || type_is_bytearray value then
    inr (mk (Constructor3 native value) Binary
           (if type_is_bytearray value then to_bytes value else value))
  else
    match pickle_dumps native value with
    | Some obj_bytes =>
        inr (mk (Constructor4 native obj_bytes Object) Object value)
    | None => inl PyPicklingError
    end.

(* the second branch: a native pointer *)
Definition init_pointer (p : ptr) : error + t :=
  match get_Type native p with
  | Some String => inr (mk p String (PyStr (get_StringValue native p)))
  | Some Binary => inr (mk p Binary (PyBytes (get_BinaryValue native p)))
  | Some Object =>
      let obj_bytes := get_BinaryValue native p in
      match first_byte obj_bytes with
      | None => inl PyIndexError
      | Some b0 =>
          if negb (N.eqb b0 128) then
            inl (PyException "Loaded state is not a pickled object")
          else
            match last_byte obj_bytes with
            | None => inl PyIndexError
            | Some bn =>
                if negb (N.eqb bn 46) then
                  inl (PyException "Loaded state is not a pickled object")
                else
                  match pickle_loads native obj_bytes with
                  | Some v => inr (mk p Object v)
                  | None => inl PyUnpicklingError
                  end
            end
      end
  | Some Bool => inr (mk p Bool (PyBool (get_BoolValue native p)))
  | Some Long => inr (mk p Long (PyInt (get_LongValue native p)))
  | Some Double => inr (mk p Double (PyFloat (get_DoubleValue native p)))
  | None => inl (PyException "State value type is invalid")
  end.

(* the constructor, [__init__] *)
Definition init (value : pyvalue) : error + t :=
  match value with
  | PyStateValue interop type value => inr (mk interop type value)
  | PyPointer p => init_pointer p
  | _ => init_value value
  end.

(* the properties [type] and [value], and [get_net_pointer] *)
Definition type (self : t) : StateType := _type self.
Definition value (self : t) : pyvalue := _value self.
Definition get_net_pointer (self : t) : ptr := _interop self.

(* a value that is neither a StateValue nor a native pointer *)
Definition is_plain (v : pyvalue) : bool :=
  match v with
  | PyStateValue _ _ _ | PyPointer _ => false
  | _ => true
  end.

End with_native.

(** A native library for the examples: a pointer is the bytes the
    native value holds, every native value is tagged [Object], and
    every value pickles to the two bytes [0x80 '.'], which unpickle to
    the one object there is. *)
Definition sample_native : @Native Z unit (list Byte.byte) :=
  {| Constructor := λ _, [];
     Constructor2 := λ _, [];
     Constructor3 := λ _, [];
     Constructor4 := λ b _, b;
     Constructor5 := λ _, [];
     Constructor6 := λ _, [];
     get_Type := λ _, Some Object;
     get_StringValue := λ _, EmptyString;
     get_BinaryValue := λ p, p;
     get_BoolValue := λ _, false;
     get_LongValue := λ _, 0;
     get_DoubleValue := λ _, 0;
     pickle_dumps := λ _, Some [Byte.x80; Byte.x2e];
     pickle_loads := λ _, Some (PyObject tt) |}.

End StateValue.
(** * Properties *)

Ltac run_py :=
  unfold bind, gets, modify, ret, raise, lift_option, lift_result in *;
  simpl in *.

(** ** Facts about ordered dictionaries *)

Section odict_facts.
Context {V : Type}.
Implicit Types (d : odict.t V) (k : string) (v : V).

Lemma odict_get_set_eq k v d : odict.get k (odict.set k v d) = Some v.
Proof.
  induction d as [|[k' v'] d IH]; simpl.
  - by rewrite decide_True.
  - destruct (decide (k' = k)) as [->|Hne]; simpl.
    + by rewrite decide_True.
    + by rewrite decide_False.
Qed.

Lemma odict_get_set_ne k k' v d :
  k ≠ k' → odict.get k' (odict.set k v d) = odict.get k' d.
Proof.
  intros Hne. induction d as [|[k0 v0] d IH]; simpl.
  - by rewrite decide_False.
  - destruct (decide (k0 = k)) as [->|Hne0]; simpl.
    + by rewrite !decide_False.
    + by rewrite IH.
Qed.

Lemma odict_get_None k d : odict.get k d = None ↔ k ∉ odict.keys d.
Proof.
  unfold odict.keys. induction d as [|[k' v'] d IH]; csimpl.
  - split; [intros _; apply not_elem_of_nil | done].
  - rewrite not_elem_of_cons. destruct (decide (k' = k)) as [->|Hne].
    + split; [done | intros [? _]; done].
    + rewrite IH. split; [intros ?; split; [congruence | done] | by intros [_ ?]].
Qed.

Lemma odict_get_Some_elem k v d : odict.get k d = Some v → (k, v) ∈ d.
Proof.
  induction d as [|[k' v'] d IH]; simpl; [done|].
  destruct (decide (k' = k)) as [->|Hne].
  - intros [= ->]. apply list_elem_of_here.
  - intros H. apply list_elem_of_further. auto.
Qed.

Lemma odict_keys_set_present k v d :
  is_Some (odict.get k d) → odict.keys (odict.set k v d) = odict.keys d.
Proof.
  unfold odict.keys. induction d as [|[k' v'] d IH]; csimpl.
  - by intros [? ?].
  - destruct (decide (k' = k)) as [->|Hne]; csimpl; [done|].
    intros H. by rewrite IH.
Qed.

Lemma odict_keys_set_absent k v d :
  odict.get k d = None →
  odict.keys (odict.set k v d) = (odict.keys d ++ [k])%list.
Proof.
  unfold odict.keys. induction d as [|[k' v'] d IH]; csimpl; [done|].
  destruct (decide (k' = k)) as [->|Hne]; csimpl; [done|].
  intros H. by rewrite IH.
Qed.

Lemma odict_wf_set k v d : odict.wf d → odict.wf (odict.set k v d).
Proof.
  unfold odict.wf. intros Hwf.
  destruct (odict.get k d) eqn:E.
  - by rewrite odict_keys_set_present.
  - rewrite odict_keys_set_absent by done.
    apply NoDup_app. split_and!; [done| |apply NoDup_singleton].
    intros k' Hk' ->%list_elem_of_singleton. by apply odict_get_None in E.
Qed.

End odict_facts.

(** ** The registry of topics *)

Lemma registry_ok_empty : registry_ok odict.empty.
Proof. split; [apply NoDup_nil_2 | apply Forall_nil_2]. Qed.

Lemma registry_ok_set t d :
  registry_ok d → registry_ok (odict.set (Topic.name t) t d).
Proof.
  intros [Hwf Hn]. split; [by apply odict_wf_set|].
  clear Hwf. induction d as [|[k' v'] d IH]; simpl.
  - by repeat constructor.
  - apply Forall_cons in Hn as [Hk Hn].
    destruct (decide (k' = Topic.name t)) as [->|Hne]; constructor; auto.
Qed.

Lemma registry_ok_get k t d :
  registry_ok d → odict.get k d = Some t → Topic.name t = k.
Proof.
  intros [_ Hn] Hget%odict_get_Some_elem.
  by apply (proj1 (Forall_forall _ _) Hn (k, t)).
Qed.

Lemma registry_named_absent k d :
  Forall (λ kt, Topic.name kt.2 = kt.1) d → k ∉ odict.keys d →
  filter (λ t', Topic.name t' = k) (odict.values d) = [].
Proof.
  unfold odict.keys, odict.values.
  induction 1 as [|[k' v'] d Hk Hn IH]; csimpl; [done|].
  intros [Hne Hnotin]%not_elem_of_cons. simpl in Hk.
  rewrite filter_cons_False by congruence. auto.
Qed.

Lemma registry_named_set t d :
  registry_ok d →
  filter (λ t', Topic.name t' = Topic.name t)
    (odict.values (odict.set (Topic.name t) t d)) = [t].
Proof.
  intros [Hwf Hn]. unfold odict.wf, odict.keys in Hwf.
  induction d as [|[k' v'] d IH].
  - unfold odict.values. csimpl. by rewrite filter_cons_True.
  - apply Forall_cons in Hn as [Hk Hn]. simpl in Hk.
    csimpl in Hwf. apply NoDup_cons in Hwf as [Hnotin Hwf].
    specialize (IH Hwf Hn). unfold odict.values in *. simpl.
    destruct (decide (k' = Topic.name t)) as [->|Hne]; csimpl.
    + rewrite filter_cons_True by done. f_equal.
      by apply registry_named_absent.
    + rewrite filter_cons_False by congruence. done.
Qed.

Lemma dict_values_topics d : dict_values (obj_of_topics d) = odict.values d.
Proof.
  unfold obj_of_topics, odict.values.
  destruct d as [|[k v] d]; [done|].
  change (dict_values (ODict (prod_map id OTopic <$> (k, v) :: d)))
    with ((fix go (kvs : list (string * obj)) : list Topic.t :=
           match kvs with
           | [] => []
           | (_, v) :: kvs' => (dict_values v ++ go kvs')%list
           end) (prod_map id OTopic <$> (k, v) :: d)).
  generalize ((k, v) :: d). clear. intros d.
  induction d as [|[k v] d IH]; csimpl; [done|]. by rewrite IH.
Qed.

Lemma topics_eq st : topics st = odict.values (_topics st).
Proof. apply dict_values_topics. Qed.

(** ** The steps of [changelog_topic] *)

Lemma read_set_discard r x st :
  read_set r (discard r x st).2 = read_set r st ∖ {[ x ]}.
Proof.
  destruct r as [|l]; simpl; [done|].
  rewrite !lookup_total_alt, lookup_alter_eq.
  destruct (caller_sets st !! l) eqn:E; simpl; [done|].
  apply set_eq. intros y. rewrite elem_of_difference.
  split; [by intros ?%not_elem_of_empty | by intros [?%not_elem_of_empty _]].
Qed.

Lemma source_topic_config_state s st :
  (source_topic_config s st).2 = st.
Proof.
  unfold source_topic_config. run_py.
  destruct (inspect_topics _ _ !! s) as [[c|]|]; simpl; try done.
  destruct (odict.get s (_topics st)); done.
Qed.

Lemma source_topic_config_registered s st c t st' :
  source_topic_config s st = (Ok (c, Some t), st') →
  odict.get s (_topics st) = Some t.
Proof.
  unfold source_topic_config. run_py.
  destruct (inspect_topics _ _ !! s) as [[c'|]|]; simpl; try done.
  destruct (odict.get s (_topics st)); [by intros [= _ ->] | done].
Qed.

(** A successful call returns the topic [changelog_of] describes, built
    from an import set that does not hold ["cleanup.policy"]. *)
Lemma changelog_topic_ok s x g cfgs st t st' :
  changelog_topic s x g cfgs st = (Ok t, st') →
  ∃ c,
    t = changelog_of (_format_changelog_name g s x)
          (read_set (imports_ref cfgs st) st ∖ {[ "cleanup.policy" ]}) c.
Proof.
  unfold changelog_topic. run_py.
  pose proof (read_set_discard (imports_ref cfgs st) "cleanup.policy" st) as Hr.
  pose proof (source_topic_config_state s
                (discard (imports_ref cfgs st) "cleanup.policy" st).2) as Hs.
  unfold discard, modify in *. simpl in *.
  destruct (source_topic_config s _) as [[[[c|] reg]|e] st1]; simpl in *;
    try done; subst st1.
  rewrite Hr. destruct reg; simpl; intros [= <- <-]; by eexists.
Qed.

Lemma changelog_topic_caller_sets s x g cfgs st :
  caller_sets (changelog_topic s x g cfgs st).2 =
  caller_sets (discard (imports_ref cfgs st) "cleanup.policy" st).2.
Proof.
  unfold changelog_topic. run_py.
  pose proof (source_topic_config_state s
                (discard (imports_ref cfgs st) "cleanup.policy" st).2) as Hs.
  unfold discard, modify in *. simpl in *.
  destruct (source_topic_config s _) as [[[[c|] reg]|e] st1]; simpl in *;
    subst st1; try done.
  destruct reg; done.
Qed.

Lemma discard_topics r x st : _topics (discard r x st).2 = _topics st.
Proof. by destruct r. Qed.

(** [topic] and [changelog_topic] keep the registry a dict whose topics
    sit under their own names. *)
Lemma registry_ok_topic name vd kd vs ks c a st :
  registry_ok (_topics st) →
  registry_ok (_topics (topic name vd kd vs ks c a st).2).
Proof.
  intros Hok. unfold topic, _apply_topic_prefix. run_py.
  by apply (registry_ok_set (Topic.mk name vs vd ks kd _)).
Qed.

Lemma registry_ok_changelog_topic s x g cfgs st :
  registry_ok (_topics st) →
  registry_ok (_topics (changelog_topic s x g cfgs st).2).
Proof.
  intros Hok. unfold changelog_topic. run_py.
  pose proof (discard_topics (imports_ref cfgs st) "cleanup.policy" st) as Ht.
  pose proof (source_topic_config_state s
                (discard (imports_ref cfgs st) "cleanup.policy" st).2) as Hs.
  unfold discard, modify in *. simpl in *.
  destruct (source_topic_config s _) as [[[[c|] reg]|e] st1] eqn:E;
    simpl in *; subst st1; try (by rewrite Ht).
  destruct reg as [t|]; simpl; [|by rewrite Ht].
  apply source_topic_config_registered in E. rewrite Ht in *.
  pose proof (registry_ok_get _ _ _ Hok E) as Hname.
  set (t' := Topic.mk (Topic.name t) _ _ _ _ _).
  replace s with (Topic.name t') by done.
  by apply registry_ok_set.
Qed.

(** ** Changelog topics *)

(** C1: for every consumer group [g], source topic name [s] and suffix
    [x], a call of [changelog_topic(s, x, g)] that returns a topic
    returns one whose name is exactly ["changelog__" + g + "--" + s +
    "--" + x].  The name is a function of [(g, s, x)] alone: neither the
    state of the manager, nor the broker, nor [configs_to_import] enters
    it, so equal inputs give equal names in every call and every run. *)
Theorem changelog_topic_name s x g cfgs st st' t :
  changelog_topic s x g cfgs st = (Ok t, st') →
  Topic.name t = "changelog__" +:+ g +:+ "--" +:+ s +:+ "--" +:+ x.
Proof. intros [c ->]%changelog_topic_ok. done. Qed.

Lemma changelog_topic_name_witness :
  ∃ t st',
    changelog_topic "orders" "default" "group1" None
      (init (broker_with orders_actual) 60) = (Ok t, st')
    ∧ Topic.name t = "changelog__group1--orders--default".
Proof.
  destruct (changelog_topic "orders" "default" "group1" None
              (init (broker_with orders_actual) 60)) as [[t|e] st'] eqn:E.
  - exists t, st'. split; [reflexivity|].
    exact (changelog_topic_name "orders" "default" "group1" None _ st' t E).
  - vm_compute in E. discriminate E.
Defined.

(** C5: whatever set [configs_to_import] the caller supplies, the topic
    a successful [changelog_topic] returns has a configuration whose
    extra setting ["cleanup.policy"] is ["compact"]: the import of
    ["cleanup.policy"] is dropped before the source settings are
    filtered, and the changelog defaults supply the value. *)
Theorem changelog_topic_compacted s x g cfgs st st' t :
  changelog_topic s x g cfgs st = (Ok t, st') →
  ∃ c, Topic.topic_config t = Some c ∧
       TopicConfig.extra_config c !! "cleanup.policy" = Some "compact".
Proof.
  intros [c ->]%changelog_topic_ok. eexists; split; [done|]. simpl.
  apply lookup_union_Some_raw. right. split; [|done].
  apply map_lookup_filter_None. right. intros v _. simpl.
  rewrite elem_of_difference, elem_of_singleton. by intros [_ ?].
Qed.

Lemma changelog_topic_compacted_witness :
  ∃ t st',
    changelog_topic "orders" "default" "group1" (Some 0%nat)
      (manager_with_caller_set (broker_with orders_with_delete_policy)
         imports_with_cleanup_policy) = (Ok t, st')
    ∧ ∃ c, Topic.topic_config t = Some c ∧
           TopicConfig.extra_config c !! "cleanup.policy" = Some "compact".
Proof.
  destruct (changelog_topic "orders" "default" "group1" (Some 0%nat)
              (manager_with_caller_set (broker_with orders_with_delete_policy)
                 imports_with_cleanup_policy)) as [[t|e] st'] eqn:E.
  - exists t, st'. split; [reflexivity|].
    exact (changelog_topic_compacted "orders" "default" "group1"
             (Some 0%nat) _ st' t E).
  - vm_compute in E. discriminate E.
Defined.

(** C9: when the caller passes its own set [S], held at reference [l],
    and [S] contains ["cleanup.policy"], then after the call, whether it
    returned or raised, the caller's set object is [S] without
    ["cleanup.policy"]: the removal is done on the argument itself. *)
Theorem changelog_topic_discards_in_place s x g l S st :
  caller_sets st !! l = Some S →
  "cleanup.policy" ∈ S →
  caller_sets (changelog_topic s x g (Some l) st).2 !! l
    = Some (S ∖ {[ "cleanup.policy" ]})
  ∧ "cleanup.policy" ∉ S ∖ {[ "cleanup.policy" ]}.
Proof.
  intros Hl Hin. split.
  - rewrite changelog_topic_caller_sets. simpl.
    rewrite lookup_total_alt, Hl. simpl.
    destruct (decide (S = ∅)) as [->|_]; [by apply not_elem_of_empty in Hin|].
    simpl. by rewrite lookup_alter_eq, Hl.
  - rewrite elem_of_difference, elem_of_singleton. by intros [_ ?].
Qed.

Lemma changelog_topic_discards_in_place_witness :
  caller_sets
    (changelog_topic "orders" "default" "group1" (Some 0%nat)
       (manager_with_caller_set broker_without_topics
          imports_with_cleanup_policy)).2 !! 0%nat
    = Some (imports_with_cleanup_policy ∖ {[ "cleanup.policy" ]})
  ∧ "cleanup.policy" ∉ imports_with_cleanup_policy ∖ {[ "cleanup.policy" ]}.
Proof.
  apply (changelog_topic_discards_in_place "orders" "default" "group1" 0%nat
           imports_with_cleanup_policy).
  - apply lookup_singleton_eq.
  - apply elem_of_union_l, elem_of_singleton. reflexivity.
Defined.

(** *** A source topic that cannot be resolved *)

Lemma changelog_topic_unregistered s x g cfgs st :
  inspect_topics (_admin_client st) [s] !! s = Some None →
  odict.get s (_topics st) = None →
  (changelog_topic s x g cfgs st).1 = Raise (KeyError s).
Proof.
  intros Hinspect Hget. unfold changelog_topic, source_topic_config. run_py.
  destruct (imports_ref cfgs st); simpl; rewrite Hinspect; simpl;
    by rewrite Hget.
Qed.

Lemma changelog_topic_null_config s x g cfgs st t :
  inspect_topics (_admin_client st) [s] !! s = Some None →
  odict.get s (_topics st) = Some t →
  Topic.topic_config t = None →
  (changelog_topic s x g cfgs st).1
  = Raise (MissingTopicForChangelog s (_format_changelog_name g s x)).
Proof.
  intros Hinspect Hget Hnull. unfold changelog_topic, source_topic_config. run_py.
  destruct (imports_ref cfgs st); simpl; rewrite Hinspect; simpl;
    rewrite Hget; simpl; by rewrite Hnull.
Qed.

(** C4: the call [changelog_topic("orders", "default", "group1")] on a
    manager on which no topic was declared, against a broker that
    answers [None] for ["orders"], does not raise
    [MissingTopicForChangelog]: the lookup [self._topics["orders"]]
    raises [KeyError] first.  (With a topic registered under the name
    and a null configuration the dedicated error is raised, see
    [changelog_topic_null_config].) *)
Theorem changelog_topic_undeclared_source_KeyError :
  inspect_topics broker_without_topics ["orders"] !! "orders" = Some None
  ∧ topics (init broker_without_topics 60) = []
  ∧ (changelog_topic "orders" "default" "group1" None
       (init broker_without_topics 60)).1 = Raise (KeyError "orders").
Proof. split_and!; vm_compute; reflexivity. Qed.

(** ** Registration of topics *)

(** C7: two calls of [topic] with the same name, on a manager whose
    registry is a dict of topics stored under their names: after the
    second call [topics] holds exactly one topic of that name, the one
    the second call returned; it is the entry stored under the name,
    and the second call added no entry. *)
Theorem topic_twice_last_writer_wins
    st name vd1 kd1 vs1 ks1 c1 a1 vd2 kd2 vs2 ks2 c2 a2 t1 st1 t2 st2 :
  registry_ok (_topics st) →
  topic name vd1 kd1 vs1 ks1 c1 a1 st = (Ok t1, st1) →
  topic name vd2 kd2 vs2 ks2 c2 a2 st1 = (Ok t2, st2) →
  topics_named name st2 = [t2]
  ∧ odict.get name (_topics st2) = Some t2
  ∧ length (topics st2) = length (topics st1).
Proof.
  unfold topic, _apply_topic_prefix. run_py.
  intros Hok [= <- <-] [= <- <-]. simpl.
  set (t1 := Topic.mk name vs1 vd1 ks1 kd1 _).
  set (t2 := Topic.mk name vs2 vd2 ks2 kd2 _).
  assert (registry_ok (odict.set name t1 (_topics st))) as Hok1
    by apply (registry_ok_set t1 _ Hok).
  split_and!.
  - unfold topics_named. rewrite topics_eq. simpl.
    apply (registry_named_set t2 _ Hok1).
  - apply odict_get_set_eq.
  - rewrite !topics_eq. simpl. unfold odict.values. rewrite !length_fmap.
    rewrite <-!(length_fmap fst).
    change (length (odict.keys (odict.set name t2
                                  (odict.set name t1 (_topics st))))
            = length (odict.keys (odict.set name t1 (_topics st)))).
    rewrite odict_keys_set_present; [done|].
    rewrite odict_get_set_eq. by eexists.
Qed.

Lemma topic_twice_last_writer_wins_witness :
  ∃ t1 st1 t2 st2,
    topic "orders" None (Some "bytes") None (Some "bytes") None true
      (init broker_without_topics 60) = (Ok t1, st1)
    ∧ topic "orders" (Some "json") (Some "bytes") None (Some "bytes")
        (Some orders_expected) true st1 = (Ok t2, st2)
    ∧ t1 ≠ t2
    ∧ topics_named "orders" st2 = [t2]
    ∧ odict.get "orders" (_topics st2) = Some t2
    ∧ length (topics st2) = length (topics st1).
Proof.
  destruct (topic "orders" None (Some "bytes") None (Some "bytes") None true
              (init broker_without_topics 60)) as [[t1|e1] st1] eqn:E1;
    [|vm_compute in E1; discriminate E1].
  destruct (topic "orders" (Some "json") (Some "bytes") None (Some "bytes")
              (Some orders_expected) true st1) as [[t2|e2] st2] eqn:E2;
    [|vm_compute in E2; discriminate E2].
  exists t1, st1, t2, st2.
  split; [reflexivity|]. split; [exact E2|]. split.
  - injection E1 as <- <-. injection E2 as <- _. discriminate.
  - exact (topic_twice_last_writer_wins (init broker_without_topics 60)
             "orders" _ _ _ _ _ _ _ _ _ _ _ _ t1 st1 t2 st2
             registry_ok_empty E1 E2).
Defined.

(** ** Topics without a configuration *)

Lemma get_topic_configs_null l t :
  t ∈ l → Topic.topic_config t = None →
  ∃ invalid,
    invalid = Topic.name <$> filter (λ t, Topic.topic_config t = None) l
    ∧ Topic.name t ∈ invalid
    ∧ get_topic_configs (Topics l)
      = Raise (ValueError (ConfigsWereNoneTypes invalid)).
Proof.
  intros Hin Hnull. eexists; split; [done|].
  assert (Topic.name t ∈
            Topic.name <$> filter (λ t, Topic.topic_config t = None) l) as Hmem.
  { apply list_elem_of_fmap. exists t. split; [done|].
    by apply list_elem_of_filter. }
  split; [done|].
  unfold get_topic_configs.
  destruct l as [|t0 l]; [by apply elem_of_nil in Hin|].
  destruct (Topic.name <$> filter _ (t0 :: l)) eqn:E; [|done].
  by apply elem_of_nil in Hmem.
Qed.

(** C10: if a topic registered on the manager, ordinary or changelog,
    has no configuration, then [all_topic_configs] raises the
    [ValueError] that lists the names of the topics without one, among
    them that topic's; so do [create_all_topics], before any call to
    the admin client, and [validate_all_topics] at every level.  The
    manager is left as it was. *)
Theorem null_config_blocks_all_topic_configs st t :
  t ∈ (topics st ++ changelog_topics st)%list →
  Topic.topic_config t = None →
  ∃ invalid,
    Topic.name t ∈ invalid
    ∧ all_topic_configs st
      = (Raise (ValueError (ConfigsWereNoneTypes invalid)), st)
    ∧ create_all_topics st
      = (Raise (ValueError (ConfigsWereNoneTypes invalid)), st)
    ∧ ∀ level,
        validate_all_topics level st
        = (Raise (ValueError (ConfigsWereNoneTypes invalid)), st).
Proof.
  intros Hin Hnull.
  destruct (get_topic_configs_null _ _ Hin Hnull)
    as (invalid & _ & Hmem & Hraise).
  exists invalid. split; [done|].
  assert (all_topic_configs st
          = (Raise (ValueError (ConfigsWereNoneTypes invalid)), st)) as Hall.
  { unfold all_topic_configs. run_py. by rewrite Hraise. }
  split_and!; [done| |].
  - unfold create_all_topics, bind. by rewrite Hall.
  - intros level. unfold validate_all_topics, bind. by rewrite Hall.
Qed.

Lemma null_config_blocks_all_topic_configs_witness :
  ∃ invalid,
    "ext" ∈ invalid
    ∧ all_topic_configs manager_with_external_topic
      = (Raise (ValueError (ConfigsWereNoneTypes invalid)),
         manager_with_external_topic)
    ∧ create_all_topics manager_with_external_topic
      = (Raise (ValueError (ConfigsWereNoneTypes invalid)),
         manager_with_external_topic)
    ∧ ∀ level,
        validate_all_topics level manager_with_external_topic
        = (Raise (ValueError (ConfigsWereNoneTypes invalid)),
           manager_with_external_topic).
Proof.
  apply (null_config_blocks_all_topic_configs manager_with_external_topic
           (Topic.mk "ext" None None (Some "bytes") (Some "bytes") None)).
  - apply list_elem_of_here.
  - reflexivity.
Defined.

(** ** Validation of topics *)

(** The [else] branch of the loop of [validate_topics] is never taken:
    [actual_configs[topic.name]] has already succeeded when the test
    [topic.name in actual_configs] is made.  So no issue is ever
    ["TOPIC MISSING"]. *)
Lemma validate_topic_never_missing eo ex acc topic acc' k :
  validate_topic eo ex acc topic = Ok acc' →
  odict.get k acc'.2 = Some TOPIC_MISSING →
  odict.get k acc.2 = Some TOPIC_MISSING.
Proof.
  destruct acc as [actual_configs issues]. unfold validate_topic.
  destruct (actual_configs !! TopicConfig.name topic) as [actual|] eqn:E;
    [|done].
  rewrite bool_decide_eq_true_2 by (apply elem_of_dom; by eexists).
  destruct eo; simpl; [by intros [= <-]|].
  destruct actual as [actual|]; [|done].
  case_bool_decide; intros [= <-]; simpl; [|done].
  destruct (decide (TopicConfig.name topic = k)) as [->|Hne].
  - by rewrite odict_get_set_eq.
  - by rewrite odict_get_set_ne.
Qed.

Lemma validate_loop_never_missing eo ex topics acc acc' k :
  validate_loop eo ex acc topics = Ok acc' →
  odict.get k acc'.2 = Some TOPIC_MISSING →
  odict.get k acc.2 = Some TOPIC_MISSING.
Proof.
  revert acc. induction topics as [|topic topics IH]; intros acc; simpl.
  - by intros [= <-].
  - destruct (validate_topic eo ex acc topic) as [acc1|e] eqn:E; [|done].
    intros Hloop Hk. eapply validate_topic_never_missing; eauto.
Qed.

Lemma get_topic_configs_raises topics e :
  get_topic_configs topics = Raise e →
  e = IndexError ∨ ∃ invalid, e = ValueError (ConfigsWereNoneTypes invalid).
Proof.
  unfold get_topic_configs.
  destruct topics as [[|t l]|[|c l]]; try (intros [= <-]; by left); try done.
  destruct (Topic.name <$> _) as [|n ns]; [done|].
  intros [= <-]. right. by eexists.
Qed.

Lemma validate_loop_raises eo ex topics acc e :
  validate_loop eo ex acc topics = Raise e →
  e = AttributeError ∨ ∃ k, e = KeyError k.
Proof.
  revert acc. induction topics as [|topic topics IH]; intros acc; simpl;
    [done|].
  destruct (validate_topic eo ex acc topic) as [acc1|e1] eqn:E;
    [by apply IH|].
  intros [= ->]. destruct acc as [actual_configs issues].
  unfold validate_topic in E.
  destruct (actual_configs !! TopicConfig.name topic) as [actual|];
    [|injection E as <-; right; by eexists].
  destruct (bool_decide _); [|done].
  destruct (negb eo); [|done].
  destruct actual; [|injection E as <-; by left].
  by destruct (bool_decide _).
Qed.

Lemma validate_topics_never_missing topics level st issues st' k :
  validate_topics topics level st
    = (Raise (TopicValidationError issues), st') →
  odict.get k issues ≠ Some TOPIC_MISSING.
Proof.
  unfold validate_topics. destruct level as [level|]; [|done]. run_py.
  destruct (get_topic_configs topics) as [configs|e] eqn:Hc.
  { destruct (validate_loop _ _ _ configs) as [[ac iss]|e] eqn:E.
    - destruct iss as [|i iss]; [done|]. intros [= <- <-] Hk.
      by pose proof (validate_loop_never_missing _ _ _ _ _ k E Hk).
    - apply validate_loop_raises in E as [->|[k' ->]]; done. }
  apply get_topic_configs_raises in Hc as [->|[invalid ->]]; done.
Qed.

(** C2: [validate_topics] at level ["exists"], for the topic ["orders"]
    and a broker whose answer maps ["orders"] to [None], returns
    normally: no issue is recorded and no [TopicValidationError] is
    raised.  At the levels ["required"] and ["all"] the same input ends
    in an [AttributeError], raised on the [None]. *)
Theorem validate_exists_accepts_missing_topic :
  inspect_topics broker_without_topics ["orders"] !! "orders" = Some None
  ∧ validate_topics (TopicConfigs [orders_expected]) (Some Level_exists)
      (init broker_without_topics 60)
    = (Ok tt, init broker_without_topics 60)
  ∧ (validate_topics (TopicConfigs [orders_expected]) (Some Level_required)
       (init broker_without_topics 60)).1 = Raise AttributeError
  ∧ (validate_topics (TopicConfigs [orders_expected]) (Some Level_all)
       (init broker_without_topics 60)).1 = Raise AttributeError.
Proof. split_and!; vm_compute; reflexivity. Qed.





(** What level ["all"] adds to ["required"]: a changed value of an
    expected key is flagged at ["all"] and passes at ["required"]. *)
Lemma validate_all_flags_changed_value :
  records_issue
    (validate_topics (TopicConfigs [orders_expected]) (Some Level_all)
       (init (broker_with orders_actual_changed) 60)).1 "orders"
  ∧ (validate_topics (TopicConfigs [orders_expected]) (Some Level_required)
       (init (broker_with orders_actual_changed) 60)).1 = Ok tt.
Proof.
  split; [|vm_compute; reflexivity].
  eexists. split; [vm_compute; reflexivity|]. vm_compute. by eexists.
Qed.

(** ** The [apply] step *)

(** C6: on a record whose value is a mapping (and still is one after
    the in-place edits of the user function), the step appended by
    [apply(fn, expand)]
    - keeps the record, with its value as edited, when [fn] returns
      [None];
    - replaces the value by the result when [fn] returns a mapping;
    - when [fn] returns a list, yields one clone of the record per
      element if [expand] is set, and raises [InvalidApplyResultType]
      if it is not;
    - raises [InvalidApplyResultType] for every other result. *)
Theorem apply_step_contract func expand row d res d' :
  Row.value row = PDict d →
  func (PDict d) = (res, PDict d') →
  let step := streamingdataframes.apply_step func expand in
  (res = PNone → step row = Ok (One (Row.set_value (PDict d') row)))
  ∧ (is_dict res = true → step row = Ok (One (Row.set_value res row)))
  ∧ (∀ l, res = PList l → expand = true →
       step row = Ok (Many ((λ r, Row.clone r row) <$> l)))
  ∧ (is_list res = true → expand = false →
       step row = Raise InvalidApplyResultType)
  ∧ (is_none res = false → is_dict res = false → is_list res = false →
       step row = Raise InvalidApplyResultType).
Proof.
  intros Hv Hf step. subst step.
  unfold streamingdataframes.apply_step, streamingdataframes.apply.
  rewrite Hv, Hf. simpl. destruct row; simpl in *.
  split_and!.
  - by intros ->.
  - by destruct res.
  - by intros l -> ->.
  - by destruct res; intros ? ->.
  - by destruct res.
Qed.

Lemma apply_step_contract_witness :
  streamingdataframes.apply_step sample_func true sample_row
  = Ok (Many [Row.clone (PDict [("a", PInt 1)]) sample_row;
              Row.clone (PDict [("a", PInt 2)]) sample_row]).
Proof.
  exact (proj1 (proj2 (proj2
    (apply_step_contract sample_func true sample_row
       [("x", PInt 1)]
       (PList [PDict [("a", PInt 1)]; PDict [("a", PInt 2)]])
       [("x", PInt 1); ("seen", PBool true)]
       eq_refl eq_refl)))
    [PDict [("a", PInt 1)]; PDict [("a", PInt 2)]] eq_refl eq_refl).
Defined.

(** ** Pipelines *)

Lemma pipeline_apply_eq p f (σ : Pipeline.store) steps :
  σ !! p = Some steps → Pipeline.apply p f σ !!! p = (steps ++ [f])%list.
Proof.
  intros H. unfold Pipeline.apply.
  by rewrite lookup_total_alt, lookup_alter_eq, H.
Qed.

Lemma pipeline_apply_ne p q f (σ : Pipeline.store) :
  p ≠ q → Pipeline.apply p f σ !! q = σ !! q.
Proof. intros H. unfold Pipeline.apply. by rewrite lookup_alter_ne. Qed.

Lemma pipeline_clone_fresh p (σ : Pipeline.store) :
  σ !! (Pipeline.clone p σ).1 = None.
Proof. simpl. apply not_elem_of_dom, is_fresh. Qed.

Lemma pipeline_clone_steps p (σ : Pipeline.store) :
  (Pipeline.clone p σ).2 !! (Pipeline.clone p σ).1 = Some (σ !!! p)
  ∧ ∀ r, r ≠ (Pipeline.clone p σ).1 → (Pipeline.clone p σ).2 !! r = σ !! r.
Proof.
  simpl. split; [by rewrite lookup_insert_eq|].
  intros r Hr. by rewrite lookup_insert_ne.
Qed.

(** C8: a new pipeline [p] receives step [A] and is cloned into [q];
    then [C] is appended to [p] only and [B] to [q] only.  The steps of
    [p] are [A; C] and those of [q] are [A; B], so processing a record
    through [p] runs the chain [A; C] and through [q] the chain
    [A; B]; and appending a step to one of the two never changes the
    steps of the other. *)
Theorem clone_then_append_independent
    (σ : Pipeline.store) (A B C : Pipeline.step) :
  let '(p, σ0) := Pipeline.new σ in
  let σ1 := Pipeline.apply p A σ0 in
  let '(q, σ2) := Pipeline.clone p σ1 in
  let σ3 := Pipeline.apply p C σ2 in
  let σ4 := Pipeline.apply q B σ3 in
  p ≠ q
  ∧ σ4 !!! p = [A; C]
  ∧ σ4 !!! q = [A; B]
  ∧ (∀ row, Pipeline.process p row σ4 = Pipeline.process_steps [A; C] row)
  ∧ (∀ row, Pipeline.process q row σ4 = Pipeline.process_steps [A; B] row)
  ∧ (∀ (σ' : Pipeline.store) f, Pipeline.apply p f σ' !! q = σ' !! q)
  ∧ (∀ (σ' : Pipeline.store) f, Pipeline.apply q f σ' !! p = σ' !! p).
Proof.
  unfold Pipeline.new.
  set (p := fresh (dom σ)).
  set (σ0 := <[p:=[]]> σ).
  set (σ1 := Pipeline.apply p A σ0).
  destruct (Pipeline.clone p σ1) as [q σ2] eqn:Hclone.
  assert (σ1 !! p = Some [A]) as H1.
  { unfold σ1, Pipeline.apply, σ0.
    by rewrite lookup_alter_eq, lookup_insert_eq. }
  assert (p ≠ q) as Hpq.
  { intros <-. pose proof (pipeline_clone_fresh p σ1) as Hf.
    rewrite Hclone in Hf. simpl in Hf. congruence. }
  destruct (pipeline_clone_steps p σ1) as [Hq Hother].
  rewrite Hclone in Hq, Hother. simpl in Hq, Hother.
  rewrite (lookup_total_correct _ _ _ H1) in Hq.
  assert (Pipeline.apply q B (Pipeline.apply p C σ2) !!! p = [A; C]) as Hp4.
  { rewrite lookup_total_alt, pipeline_apply_ne by done.
    rewrite <-lookup_total_alt. apply (pipeline_apply_eq p C σ2 [A]).
    by rewrite Hother. }
  assert (Pipeline.apply q B (Pipeline.apply p C σ2) !!! q = [A; B]) as Hq4.
  { apply (pipeline_apply_eq q B _ [A]). by rewrite pipeline_apply_ne. }
  split_and!; try done.
  - intros row. unfold Pipeline.process. by rewrite Hp4.
  - intros row. unfold Pipeline.process. by rewrite Hq4.
  - intros σ' f. by apply pipeline_apply_ne.
  - intros σ' f. by apply pipeline_apply_ne.
Qed.

(** The same at the level of the dataframe: [df.apply(func)] works on a
    clone, so the pipeline of [df] keeps its steps and the dataframe
    returned has them followed by [func]. *)
Lemma dataframe_apply_leaves_original uuid func df (σ : Pipeline.store)
    steps df' σ' :
  σ !! StreamingDataFrame._pipeline df = Some steps →
  StreamingDataFrame.apply uuid func df σ = (Ok df', σ') →
  StreamingDataFrame._pipeline df' ≠ StreamingDataFrame._pipeline df
  ∧ σ' !! StreamingDataFrame._pipeline df = Some steps
  ∧ σ' !! StreamingDataFrame._pipeline df' = Some (steps ++ [func])%list.
Proof.
  intros Hp. unfold StreamingDataFrame.apply, StreamingDataFrame._clone,
    StreamingDataFrame.init, StreamingDataFrame._apply, Pipeline.clone.
  set (q := fresh (dom σ)).
  assert (q ≠ StreamingDataFrame._pipeline df) as Hq.
  { intros Heq. pose proof (is_fresh (dom σ)) as Hf. fold q in Hf.
    apply Hf, elem_of_dom. rewrite Heq. by eexists. }
  destruct (odict.values (StreamingDataFrame._topics df)); [done|].
  intros [= <- <-]. simpl. unfold Pipeline.apply. split_and!; [done| |].
  - by rewrite lookup_alter_ne, lookup_insert_ne.
  - rewrite lookup_alter_eq, lookup_insert_eq. simpl.
    by rewrite (lookup_total_correct _ _ _ Hp).
Qed.

(** * Further properties *)

(** ** More facts about ordered dictionaries *)

Section odict_more_facts.
Context {V : Type}.
Implicit Types (d : odict.t V) (k : string) (v : V).

Lemma odict_set_absent k v d :
  odict.get k d = None → odict.set k v d = (d ++ [(k, v)])%list.
Proof.
  induction d as [|[k' v'] d IH]; simpl; [done|].
  destruct (decide (k' = k)) as [->|Hne]; [done|].
  intros H. by rewrite IH.
Qed.

Lemma odict_values_set_elem k v d y :
  y ∈ odict.values (odict.set k v d) → y = v ∨ y ∈ odict.values d.
Proof.
  unfold odict.values. induction d as [|[k' v'] d IH]; csimpl.
  - intros ->%list_elem_of_singleton. by left.
  - destruct (decide (k' = k)) as [->|Hne]; csimpl.
    + intros [->|H]%elem_of_cons; [by left|].
      right. by apply list_elem_of_further.
    + intros [->|H]%elem_of_cons; [right; apply list_elem_of_here|].
      destruct (IH H) as [->|H']; [by left|].
      right. by apply list_elem_of_further.
Qed.

Lemma odict_get_Some_values k v d : odict.get k d = Some v → v ∈ odict.values d.
Proof.
  intros H%odict_get_Some_elem. unfold odict.values.
  apply list_elem_of_fmap. by exists (k, v).
Qed.

End odict_more_facts.

(** ** What [changelog_topic] computes *)

Lemma source_topic_config_discard s r x st :
  (source_topic_config s (discard r x st).2).1 = (source_topic_config s st).1.
Proof.
  unfold source_topic_config. run_py.
  destruct r; simpl;
    (destruct (inspect_topics _ _ !! s) as [[c|]|]; simpl; try done;
     by destruct (odict.get s (_topics st))).
Qed.

Lemma source_topic_config_own_config s st c src :
  (source_topic_config s st).1 = Ok (c, Some src) →
  Topic.topic_config src = c ∧ odict.get s (_topics st) = Some src.
Proof.
  unfold source_topic_config. run_py.
  destruct (inspect_topics _ _ !! s) as [[c'|]|]; simpl; try done.
  destruct (odict.get s (_topics st)); simpl; [|done].
  by intros [= <- <-].
Qed.

(** The whole of [changelog_topic], by the outcome of the lookup of the
    base configuration. *)
Lemma changelog_topic_eq s x g cfgs st :
  changelog_topic s x g cfgs st =
    let st0 := (discard (imports_ref cfgs st) "cleanup.policy" st).2 in
    let name := _format_changelog_name g s x in
    let allowed := imports_used cfgs st in
    match (source_topic_config s st).1 with
    | Raise e => (Raise e, st0)
    | Ok (None, _) => (Raise (MissingTopicForChangelog s name), st0)
    | Ok (Some c, reg) =>
        let t := changelog_of name allowed c in
        (Ok t,
         register_changelog s x t
           match reg with
           | Some src =>
               set_topics (odict.set s (with_restricted_config allowed src))
                 st0
           | None => st0
           end)
    end.
Proof.
  unfold changelog_topic, imports_used. run_py.
  pose proof (read_set_discard (imports_ref cfgs st) "cleanup.policy" st) as Hr.
  pose proof (source_topic_config_state s
                (discard (imports_ref cfgs st) "cleanup.policy" st).2) as Hs.
  pose proof (source_topic_config_discard s (imports_ref cfgs st)
                "cleanup.policy" st) as Hd.
  unfold discard, modify in *. simpl in *.
  destruct (source_topic_config s _) as [r st1] eqn:E; simpl in *; subst st1.
  rewrite <-Hd. destruct r as [[[c|] reg]|e]; simpl; try done.
  rewrite Hr. destruct reg as [src|]; simpl; [|done].
  symmetry in Hd. apply source_topic_config_own_config in Hd as [Hc _].
  unfold with_restricted_config. by rewrite Hc.
Qed.

Lemma dict_values_changelog_topics d :
  dict_values (obj_of_changelog_topics d)
  = mjoin (odict.values <$> odict.values d).
Proof.
  unfold obj_of_changelog_topics, odict.values at 2.
  destruct d as [|[k v] d]; [done|].
  change (dict_values (ODict (prod_map id obj_of_topics <$> (k, v) :: d)))
    with ((fix go (kvs : list (string * obj)) : list Topic.t :=
           match kvs with
           | [] => []
           | (_, v) :: kvs' => (dict_values v ++ go kvs')%list
           end) (prod_map id obj_of_topics <$> (k, v) :: d)).
  generalize ((k, v) :: d). clear. intros d.
  induction d as [|[k v] d IH]; csimpl; [done|].
  rewrite IH. f_equal. exact (dict_values_topics v).
Qed.

Lemma changelog_topics_eq st :
  changelog_topics st
  = mjoin (odict.values <$> odict.values (_changelog_topics st)).
Proof. apply dict_values_changelog_topics. Qed.

Lemma changelog_lookup_elem s x st t :
  changelog_lookup s x st = Some t → t ∈ changelog_topics st.
Proof.
  unfold changelog_lookup. rewrite changelog_topics_eq.
  destruct (odict.get s (_changelog_topics st)) as [inner|] eqn:E; [|done].
  simpl. intros Hx. apply list_elem_of_join. exists (odict.values inner).
  split; [by eapply odict_get_Some_values|].
  apply list_elem_of_fmap. exists inner. split; [done|].
  by eapply odict_get_Some_values.
Qed.

Lemma changelog_topics_register s x t st t' :
  t' ∈ changelog_topics (register_changelog s x t st) →
  t' = t ∨ t' ∈ changelog_topics st.
Proof.
  rewrite !changelog_topics_eq. unfold register_changelog. simpl.
  intros (vs & Ht' & (inner' & -> & Hin)%list_elem_of_fmap)%list_elem_of_join.
  apply odict_values_set_elem in Hin as [->|Hin].
  - apply odict_values_set_elem in Ht' as [->|Ht']; [by left|]. right.
    destruct (odict.get s (_changelog_topics st)) as [inner|] eqn:E;
      simpl in Ht'; [|by apply elem_of_nil in Ht'].
    apply list_elem_of_join. exists (odict.values inner). split; [done|].
    apply list_elem_of_fmap. exists inner. split; [done|].
    by eapply odict_get_Some_values.
  - right. apply list_elem_of_join. exists (odict.values inner').
    split; [done|]. apply list_elem_of_fmap. by exists inner'.
Qed.

Lemma changelog_lookup_register s x t st s' x' :
  changelog_lookup s' x' (register_changelog s x t st)
  = if decide ((s', x') = (s, x)) then Some t else changelog_lookup s' x' st.
Proof.
  unfold changelog_lookup, register_changelog. simpl.
  destruct (decide (s = s')) as [<-|Hs].
  - rewrite odict_get_set_eq. simpl.
    destruct (decide (x = x')) as [<-|Hx].
    + rewrite odict_get_set_eq. by rewrite decide_True.
    + rewrite odict_get_set_ne by done.
      rewrite decide_False by congruence.
      by destruct (odict.get s (_changelog_topics st)).
  - rewrite odict_get_set_ne by done. by rewrite decide_False by congruence.
Qed.

Lemma changelog_lookup_frame s x st st' :
  _changelog_topics st' = _changelog_topics st →
  changelog_lookup s x st' = changelog_lookup s x st.
Proof. unfold changelog_lookup. by intros ->. Qed.

Lemma discard_changelog_topics r x st :
  _changelog_topics (discard r x st).2 = _changelog_topics st.
Proof. by destruct r. Qed.

(** X1: a successful [changelog_topic(source, suffix, ...)] stores the
    topic it returns under [(source, suffix)], where a later lookup
    finds it and [changelog_topics] lists it; the changelog topics
    stored under every other pair of source and suffix stay as they
    were, so the suffixes of one source topic coexist. *)
Theorem changelog_topic_registered s x g cfgs st t st' :
  changelog_topic s x g cfgs st = (Ok t, st') →
  changelog_lookup s x st' = Some t
  ∧ t ∈ changelog_topics st'
  ∧ ∀ s' x', (s', x') ≠ (s, x) →
      changelog_lookup s' x' st' = changelog_lookup s' x' st.
Proof.
  rewrite changelog_topic_eq. simpl.
  destruct (source_topic_config s st).1 as [[[c|] reg]|e]; [|done..].
  intros [= <- <-].
  assert (∀ s' x' st0,
            _changelog_topics st0 = _changelog_topics st →
            changelog_lookup s' x'
              (register_changelog s x
                 (changelog_of (_format_changelog_name g s x)
                    (imports_used cfgs st) c) st0)
            = if decide ((s', x') = (s, x))
              then Some (changelog_of (_format_changelog_name g s x)
                           (imports_used cfgs st) c)
              else changelog_lookup s' x' st) as Hlook.
  { intros s' x' st0 Hst0. rewrite changelog_lookup_register.
    by rewrite (changelog_lookup_frame s' x' st st0 Hst0). }
  assert (_changelog_topics
            match reg with
            | Some src =>
                set_topics
                  (odict.set s
                     (with_restricted_config (imports_used cfgs st) src))
                  (discard (imports_ref cfgs st) "cleanup.policy" st).2
            | None => (discard (imports_ref cfgs st) "cleanup.policy" st).2
            end = _changelog_topics st) as Hframe.
  { destruct reg; simpl; apply discard_changelog_topics. }
  assert (changelog_lookup s x
            (register_changelog s x
               (changelog_of (_format_changelog_name g s x)
                  (imports_used cfgs st) c)
               match reg with
               | Some src =>
                   set_topics
                     (odict.set s
                        (with_restricted_config (imports_used cfgs st) src))
                     (discard (imports_ref cfgs st) "cleanup.policy" st).2
               | None => (discard (imports_ref cfgs st) "cleanup.policy" st).2
               end)
          = Some (changelog_of (_format_changelog_name g s x)
                    (imports_used cfgs st) c)) as Hhere.
  { rewrite Hlook by done. by rewrite decide_True. }
  split_and!; [done|by eapply changelog_lookup_elem|].
  intros s' x' Hne. rewrite Hlook by done. by rewrite decide_False.
Qed.

Lemma changelog_topic_registered_witness :
  ∃ t st',
    changelog_topic "orders" "default" "group1" None
      (init (broker_with orders_actual) 60) = (Ok t, st')
    ∧ changelog_lookup "orders" "default" st' = Some t
    ∧ t ∈ changelog_topics st'
    ∧ ∀ s' x', (s', x') ≠ ("orders", "default") →
        changelog_lookup s' x' st'
        = changelog_lookup s' x' (init (broker_with orders_actual) 60).
Proof.
  destruct (changelog_topic "orders" "default" "group1" None
              (init (broker_with orders_actual) 60)) as [[t|e] st'] eqn:E.
  - exists t, st'. split; [reflexivity|].
    exact (changelog_topic_registered "orders" "default" "group1" None
             _ t st' E).
  - vm_compute in E. discriminate E.
Defined.

Lemma source_topic_config_on_broker s st a :
  inspect_topics (_admin_client st) [s] !! s = Some (Some a) →
  (source_topic_config s st).1 = Ok (Some a, None).
Proof. intros H. unfold source_topic_config. run_py. by rewrite H. Qed.

Lemma source_topic_config_registered_config s st src :
  inspect_topics (_admin_client st) [s] !! s = Some None →
  odict.get s (_topics st) = Some src →
  (source_topic_config s st).1 = Ok (Topic.topic_config src, Some src).
Proof.
  intros H1 H2. unfold source_topic_config. run_py. rewrite H1. simpl.
  by rewrite H2.
Qed.

(** X2: when the broker has the source topic, [changelog_topic]
    succeeds and derives the changelog topic from the broker's
    configuration alone: the changelog has the source's partition count
    and replication factor (the class defaults where the broker reports
    0), and as extra settings those of the source that are in the
    import set, plus ["cleanup.policy" = "compact"].  All four
    serializers are ["bytes"].  The registry of ordinary topics is not
    consulted and is left as it was. *)
Theorem changelog_topic_from_broker s x g cfgs st a :
  inspect_topics (_admin_client st) [s] !! s = Some (Some a) →
  (changelog_topic s x g cfgs st).1
  = Ok (Topic.mk (_format_changelog_name g s x)
          (Some "bytes") (Some "bytes") (Some "bytes") (Some "bytes")
          (Some (TopicConfig.mk (_format_changelog_name g s x)
                   (or_default (Some (TopicConfig.num_partitions a))
                      _topic_partitions)
                   (or_default (Some (TopicConfig.replication_factor a))
                      _topic_replication)
                   (filter (λ kv, kv.1 ∈ imports_used cfgs st)
                      (TopicConfig.extra_config a)
                    ∪ {[ "cleanup.policy" := "compact" ]}))))
  ∧ _topics (changelog_topic s x g cfgs st).2 = _topics st.
Proof.
  intros Ha. rewrite changelog_topic_eq. simpl.
  rewrite (source_topic_config_on_broker _ _ _ Ha). simpl.
  split; [done|]. apply discard_topics.
Qed.

Lemma changelog_topic_from_broker_witness :
  (changelog_topic "orders" "default" "group1" None
     (init (broker_with orders_actual) 60)).1
  = Ok (Topic.mk "changelog__group1--orders--default"
          (Some "bytes") (Some "bytes") (Some "bytes") (Some "bytes")
          (Some (TopicConfig.mk "changelog__group1--orders--default" 3 1
                   (filter (λ kv, kv.1 ∈ imports_used None
                                     (init (broker_with orders_actual) 60))
                      (TopicConfig.extra_config orders_actual)
                    ∪ {[ "cleanup.policy" := "compact" ]}))))
  ∧ _topics (changelog_topic "orders" "default" "group1" None
               (init (broker_with orders_actual) 60)).2
    = _topics (init (broker_with orders_actual) 60).
Proof.
  apply (changelog_topic_from_broker "orders" "default" "group1" None
           (init (broker_with orders_actual) 60) orders_actual).
  vm_compute. reflexivity.
Defined.

(** X3: when the broker does not have the source topic and the topic
    registered under its name has a configuration, [changelog_topic]
    succeeds, and it edits that registered configuration in place: from
    then on the source topic's own [extra_config] holds only the
    settings that are in the import set; name, partition count and
    replication factor of the source topic are kept.  Every other
    registered topic is left as it was. *)
Theorem changelog_topic_restricts_source_config s x g cfgs st src c :
  inspect_topics (_admin_client st) [s] !! s = Some None →
  odict.get s (_topics st) = Some src →
  Topic.topic_config src = Some c →
  ∃ t st',
    changelog_topic s x g cfgs st = (Ok t, st')
    ∧ odict.get s (_topics st')
      = Some (Topic.mk (Topic.name src) (Topic.value_serializer src)
                (Topic.value_deserializer src) (Topic.key_serializer src)
                (Topic.key_deserializer src)
                (Some (TopicConfig.mk (TopicConfig.name c)
                         (TopicConfig.num_partitions c)
                         (TopicConfig.replication_factor c)
                         (filter (λ kv, kv.1 ∈ imports_used cfgs st)
                            (TopicConfig.extra_config c)))))
    ∧ ∀ n, n ≠ s → odict.get n (_topics st') = odict.get n (_topics st).
Proof.
  intros Hinspect Hget Hc. rewrite changelog_topic_eq. cbv zeta.
  rewrite (source_topic_config_registered_config _ _ _ Hinspect Hget), Hc.
  cbv beta iota. eexists _, _. split; [reflexivity|].
  unfold register_changelog, set_topics. cbn [_topics]. split.
  - rewrite odict_get_set_eq. unfold with_restricted_config.
    by rewrite Hc.
  - intros n Hn. rewrite odict_get_set_ne by done.
    by rewrite discard_topics.
Qed.

Lemma changelog_topic_restricts_source_config_witness :
  ∃ t st',
    changelog_topic "orders" "default" "group1" None manager_with_orders
    = (Ok t, st')
    ∧ odict.get "orders" (_topics st')
      = Some (Topic.mk "orders" None None (Some "bytes") (Some "bytes")
                (Some (TopicConfig.mk "orders" 3 1
                         (filter (λ kv, kv.1 ∈ imports_used None
                                           manager_with_orders)
                            (TopicConfig.extra_config orders_declared)))))
    ∧ ∀ n, n ≠ "orders" →
        odict.get n (_topics st') = odict.get n (_topics manager_with_orders).
Proof.
  apply (changelog_topic_restricts_source_config "orders" "default" "group1"
           None manager_with_orders
           (Topic.mk "orders" None None (Some "bytes") (Some "bytes")
              (Some orders_declared))
           orders_declared).
  - vm_compute. reflexivity.
  - vm_compute. reflexivity.
  - reflexivity.
Defined.

(** X4: a call of [changelog_topic] that raises registers nothing: the
    registry of ordinary topics and the registry of changelog topics
    are as before the call. *)
Theorem changelog_topic_failure_keeps_registries s x g cfgs st e st' :
  changelog_topic s x g cfgs st = (Raise e, st') →
  _topics st' = _topics st ∧ _changelog_topics st' = _changelog_topics st.
Proof.
  rewrite changelog_topic_eq. simpl.
  destruct (source_topic_config s st).1 as [[[c|] reg]|e0]; [done|..];
    intros [= _ <-]; split;
    (apply discard_topics || apply discard_changelog_topics).
Qed.

Lemma changelog_topic_failure_keeps_registries_witness :
  ∃ e st',
    changelog_topic "orders" "default" "group1" None
      manager_with_external_topic = (Raise e, st')
    ∧ _topics st' = _topics manager_with_external_topic
    ∧ _changelog_topics st' = _changelog_topics manager_with_external_topic.
Proof.
  destruct (changelog_topic "orders" "default" "group1" None
              manager_with_external_topic) as [[t|e] st'] eqn:E.
  - vm_compute in E. discriminate E.
  - exists e, st'. split; [reflexivity|].
    exact (changelog_topic_failure_keeps_registries "orders" "default"
             "group1" None _ e st' E).
Defined.

(** ** What the methods leave alone *)

Lemma validate_topics_state ts level st : (validate_topics ts level st).2 = st.
Proof.
  unfold validate_topics. destruct level as [level|]; [|done]. run_py.
  destruct (get_topic_configs ts) as [configs|e]; [|done]. simpl.
  destruct (validate_loop _ _ _ configs) as [[ac iss]|e]; [|done]. simpl.
  by destruct iss.
Qed.

Lemma all_topic_configs_state st : (all_topic_configs st).2 = st.
Proof.
  unfold all_topic_configs. run_py.
  by destruct (get_topic_configs (Topics (topics st ++ changelog_topics st))%list).
Qed.

Lemma validate_all_topics_state level st :
  (validate_all_topics level st).2 = st.
Proof.
  unfold validate_all_topics, bind.
  pose proof (all_topic_configs_state st) as H.
  destruct (all_topic_configs st) as [[cs|e] st1]; simpl in H; subst st1;
    [|done].
  apply validate_topics_state.
Qed.

Lemma create_topics_registries ts st :
  _topics (create_topics ts st).2 = _topics st
  ∧ _changelog_topics (create_topics ts st).2 = _changelog_topics st
  ∧ _changelog_extra_config_imports_defaults (create_topics ts st).2
    = _changelog_extra_config_imports_defaults st.
Proof.
  unfold create_topics. run_py. by destruct (get_topic_configs ts).
Qed.

Lemma create_all_topics_registries st :
  _topics (create_all_topics st).2 = _topics st
  ∧ _changelog_topics (create_all_topics st).2 = _changelog_topics st
  ∧ _changelog_extra_config_imports_defaults (create_all_topics st).2
    = _changelog_extra_config_imports_defaults st.
Proof.
  unfold create_all_topics, bind.
  pose proof (all_topic_configs_state st) as H.
  by destruct (all_topic_configs st) as [[cs|e] st1]; simpl in H; subst st1.
Qed.

Lemma changelog_topic_imports_defaults s x g cfgs st :
  _changelog_extra_config_imports_defaults (changelog_topic s x g cfgs st).2
  = _changelog_extra_config_imports_defaults st
  ∨ _changelog_extra_config_imports_defaults (changelog_topic s x g cfgs st).2
    = _changelog_extra_config_imports_defaults st ∖ {[ "cleanup.policy" ]}.
Proof.
  rewrite changelog_topic_eq. cbv zeta.
  destruct (source_topic_config s st).1 as [[[c|] [src|]]|e];
    destruct (imports_ref cfgs st); simpl; auto.
Qed.

Lemma changelog_topic_changelog_topics s x g cfgs st t' :
  t' ∈ changelog_topics (changelog_topic s x g cfgs st).2 →
  t' ∈ changelog_topics st
  ∨ ∃ c, t' = changelog_of (_format_changelog_name g s x)
                (imports_used cfgs st) c.
Proof.
  rewrite changelog_topic_eq. cbv zeta.
  assert (∀ st0, _changelog_topics st0 = _changelog_topics st →
            t' ∈ changelog_topics st0 → t' ∈ changelog_topics st) as Hsame.
  { intros st0 H0. by rewrite !changelog_topics_eq, H0. }
  destruct (source_topic_config s st).1 as [[[c|] reg]|e]; cbn [snd].
  - intros [->|H]%changelog_topics_register; [right; by eexists|].
    left. revert H. apply Hsame.
    destruct reg; simpl; apply discard_changelog_topics.
  - left. revert H. apply Hsame, discard_changelog_topics.
  - left. revert H. apply Hsame, discard_changelog_topics.
Qed.

(** ** Invariants of the manager *)

(** X5: on every manager a program can reach, the class attribute
    [_changelog_extra_config_imports_defaults] is the set
    [{"retention.bytes", "retention.ms"}]: [changelog_topic] calls
    [discard] on that shared set when no import set is passed, and the
    call never changes it. *)
Theorem imports_defaults_never_change st :
  reachable st →
  _changelog_extra_config_imports_defaults st
  = {[ "retention.bytes"; "retention.ms" ]}.
Proof.
  induction 1 as [| | |src x g cfgs st _ IH|ts st _ IH|st _ IH
                    |ts l st _ IH|l st _ IH]; try done.
  - destruct (changelog_topic_imports_defaults src x g cfgs st) as [->| ->];
      [done|]. rewrite IH. apply set_eq. intros y.
    rewrite elem_of_difference, elem_of_singleton, elem_of_union,
      !elem_of_singleton.
    split; [by intros [? _]|]. intros [-> | ->]; by split; [auto|].
  - by rewrite (proj2 (proj2 (create_topics_registries ts st))).
  - by rewrite (proj2 (proj2 (create_all_topics_registries st))).
  - by rewrite validate_topics_state.
  - by rewrite validate_all_topics_state.
Qed.

Lemma imports_defaults_never_change_witness :
  _changelog_extra_config_imports_defaults
    (changelog_topic "orders" "default" "group1" None
       (init (broker_with orders_actual) 60)).2
  = {[ "retention.bytes"; "retention.ms" ]}.
Proof.
  apply imports_defaults_never_change.
  apply reachable_changelog_topic, reachable_init.
Defined.

(** X6: on every manager a program can reach, every topic that
    [changelog_topics] lists has a configuration; that configuration
    carries the topic's own name and the extra setting
    ["cleanup.policy" = "compact"], the topic's four serializers are
    ["bytes"], and its name has the form
    [changelog__{group}--{source}--{suffix}]. *)
Theorem changelog_topics_always_compacted st t :
  reachable st →
  t ∈ changelog_topics st →
  (∃ c, Topic.topic_config t = Some c
        ∧ TopicConfig.name c = Topic.name t
        ∧ TopicConfig.extra_config c !! "cleanup.policy" = Some "compact")
  ∧ (∃ g s x, Topic.name t = _format_changelog_name g s x)
  ∧ Topic.value_serializer t = Some "bytes"
  ∧ Topic.value_deserializer t = Some "bytes"
  ∧ Topic.key_serializer t = Some "bytes"
  ∧ Topic.key_deserializer t = Some "bytes".
Proof.
  intros Hreach. revert t.
  induction Hreach as [|sets st _ IH|name vd kd vs ks c a st _ IH
                         |src x g cfgs st _ IH|ts st _ IH|st _ IH
                         |ts l st _ IH|l st _ IH]; intros t.
  - intros H. by apply elem_of_nil in H.
  - apply IH.
  - apply IH.
  - intros [H|[c ->]]%changelog_topic_changelog_topics; [by apply IH|].
    split_and!; try done; [|by eexists _, _, _].
    eexists. split_and!; [done..|]. simpl.
    apply lookup_union_Some_raw. right. split; [|done].
    apply map_lookup_filter_None. right. intros v _. simpl.
    unfold imports_used.
    rewrite elem_of_difference, elem_of_singleton. by intros [_ ?].
  - rewrite changelog_topics_eq,
      (proj1 (proj2 (create_topics_registries ts st))),
      <-changelog_topics_eq. apply IH.
  - rewrite changelog_topics_eq,
      (proj1 (proj2 (create_all_topics_registries st))),
      <-changelog_topics_eq. apply IH.
  - rewrite validate_topics_state. apply IH.
  - rewrite validate_all_topics_state. apply IH.
Qed.

Lemma changelog_topics_always_compacted_witness :
  ∃ t,
    t ∈ changelog_topics
          (changelog_topic "orders" "default" "group1" (Some 0%nat)
             (manager_with_caller_set (broker_with orders_with_delete_policy)
                imports_with_cleanup_policy)).2
    ∧ ∃ c, Topic.topic_config t = Some c
           ∧ TopicConfig.extra_config c !! "cleanup.policy" = Some "compact".
Proof.
  destruct (changelog_topic "orders" "default" "group1" (Some 0%nat)
              (manager_with_caller_set (broker_with orders_with_delete_policy)
                 imports_with_cleanup_policy)) as [[t|e] st'] eqn:E;
    [|vm_compute in E; discriminate E].
  exists t.
  assert (t ∈ changelog_topics st') as Hin
    by exact (proj1 (proj2 (changelog_topic_registered _ _ _ _ _ _ _ E))).
  split; [exact Hin|].
  assert (reachable st') as Hreach.
  { replace st' with
      (changelog_topic "orders" "default" "group1" (Some 0%nat)
         (manager_with_caller_set (broker_with orders_with_delete_policy)
            imports_with_cleanup_policy)).2 by (by rewrite E).
    apply reachable_changelog_topic.
    apply (reachable_caller_sets {[ 0%nat := imports_with_cleanup_policy ]}
             (init (broker_with orders_with_delete_policy) 60)).
    apply reachable_init. }
  destruct (changelog_topics_always_compacted st' t Hreach Hin)
    as [(c & Hc & _ & Hcompact) _].
  exists c. split; [exact Hc | exact Hcompact].
Defined.

Lemma registry_ok_names d :
  registry_ok d → Topic.name <$> odict.values d = odict.keys d.
Proof.
  intros [_ Hn]. unfold odict.values, odict.keys.
  induction Hn as [|[k t] d Hk Hn IH]; csimpl; [done|].
  simpl in Hk. by rewrite Hk, IH.
Qed.

Lemma odict_get_wf_elem {V} k (v : V) d :
  odict.wf d → (k, v) ∈ d → odict.get k d = Some v.
Proof.
  unfold odict.wf, odict.keys.
  induction d as [|[k' v'] d IH]; csimpl; [by intros _ ?%elem_of_nil|].
  intros [Hnotin Hwf]%NoDup_cons [[= -> ->]|Hin]%elem_of_cons.
  - by rewrite decide_True.
  - rewrite decide_False; [by apply IH|].
    intros ->. apply Hnotin. apply list_elem_of_fmap. by exists (k, v).
Qed.

(** X7: on every manager a program can reach, no two topics that
    [topics] lists have the same name, and each of them is the entry
    the registry holds under its name. *)
Theorem topics_names_unique st :
  reachable st →
  NoDup (Topic.name <$> topics st)
  ∧ ∀ t, t ∈ topics st → odict.get (Topic.name t) (_topics st) = Some t.
Proof.
  intros Hreach.
  assert (registry_ok (_topics st)) as Hok.
  { induction Hreach as [|sets st _ IH|name vd kd vs ks c a st _ IH
                           |src x g cfgs st _ IH|ts st _ IH|st _ IH
                           |ts l st _ IH|l st _ IH].
    - apply registry_ok_empty.
    - apply IH.
    - by apply registry_ok_topic.
    - by apply registry_ok_changelog_topic.
    - by rewrite (proj1 (create_topics_registries ts st)).
    - by rewrite (proj1 (create_all_topics_registries st)).
    - by rewrite validate_topics_state.
    - by rewrite validate_all_topics_state. }
  rewrite topics_eq. split.
  - rewrite registry_ok_names by done. apply Hok.
  - intros t ((k & t') & -> & Hin)%list_elem_of_fmap. simpl.
    destruct Hok as [Hwf Hn].
    pose proof (proj1 (Forall_forall _ _) Hn _ Hin) as Hk. simpl in Hk.
    rewrite Hk. by apply odict_get_wf_elem.
Qed.

Lemma topics_names_unique_witness :
  NoDup (Topic.name <$> topics manager_with_orders)
  ∧ ∀ t, t ∈ topics manager_with_orders →
      odict.get (Topic.name t) (_topics manager_with_orders) = Some t.
Proof.
  apply topics_names_unique. apply reachable_topic, reachable_init.
Defined.

(** X8: [topic(name, ...)] stores the topic it returns under [name] and
    touches nothing else: the entries under other names and the
    changelog topics are as before.  When [name] was not registered the
    new topic comes last in [topics]; when it was, [topics] keeps its
    length. *)
Theorem topic_registers name vd kd vs ks c a st t st' :
  topic name vd kd vs ks c a st = (Ok t, st') →
  Topic.name t = name
  ∧ odict.get name (_topics st') = Some t
  ∧ (∀ n, n ≠ name → odict.get n (_topics st') = odict.get n (_topics st))
  ∧ _changelog_topics st' = _changelog_topics st
  ∧ (odict.get name (_topics st) = None →
       topics st' = (topics st ++ [t])%list)
  ∧ (is_Some (odict.get name (_topics st)) →
       length (topics st') = length (topics st)).
Proof.
  unfold topic, _apply_topic_prefix. run_py. intros [= <- <-]. simpl.
  split_and!; try done.
  - apply odict_get_set_eq.
  - intros n Hn. by apply odict_get_set_ne.
  - intros Hnone. rewrite !topics_eq. simpl.
    rewrite odict_set_absent by done. unfold odict.values.
    by rewrite fmap_app.
  - intros Hsome. rewrite !topics_eq. simpl. unfold odict.values.
    rewrite !length_fmap. rewrite <-!(length_fmap fst).
    change (length (odict.keys (odict.set name
              (Topic.mk name vs vd ks kd
                 (_process_topic_configs name c None a)) (_topics st)))
            = length (odict.keys (_topics st))).
    by rewrite odict_keys_set_present.
Qed.

Lemma topic_registers_witness :
  ∃ t st',
    topic "payments" None (Some "bytes") None (Some "bytes") None true
      manager_with_orders = (Ok t, st')
    ∧ Topic.name <$> topics st' = ["orders"; "payments"].
Proof.
  destruct (topic "payments" None (Some "bytes") None (Some "bytes") None true
              manager_with_orders) as [[t|e] st'] eqn:E;
    [|vm_compute in E; discriminate E].
  exists t, st'. split; [reflexivity|].
  destruct (topic_registers _ _ _ _ _ _ _ _ _ _ E)
    as (Hname & _ & _ & _ & Hnew & _).
  rewrite Hnew by (vm_compute; reflexivity).
  rewrite fmap_app. simpl. rewrite Hname. reflexivity.
Defined.

(** X9: what [topic] returns, in full.  The topic carries the name and
    the four serializers as passed.  A supplied configuration is
    rebuilt: it takes the name of the topic, not the name it came with;
    a partition count or replication factor of 0 is replaced by the
    class default (2 and 1); the extra settings are kept.  Without a
    supplied configuration the topic gets the default one, or none at
    all when [auto_create_config] is false. *)
Theorem topic_returns name vd kd vs ks c a st :
  (topic name vd kd vs ks c a st).1
  = Ok (Topic.mk name vs vd ks kd
          match c with
          | Some c =>
              Some (TopicConfig.mk name
                      (if decide (TopicConfig.num_partitions c = 0) then 2
                       else TopicConfig.num_partitions c)
                      (if decide (TopicConfig.replication_factor c = 0) then 1
                       else TopicConfig.replication_factor c)
                      (TopicConfig.extra_config c))
          | None =>
              if a then Some (TopicConfig.mk name 2 1 ∅) else None
          end).
Proof.
  unfold topic, _apply_topic_prefix. run_py. do 2 f_equal.
  unfold _process_topic_configs, _topic_config_with_defaults,
    TopicConfig.update_extra_config, TopicConfig.new, or_default,
    _topic_partitions, _topic_replication, _topic_extra_config_defaults.
  destruct c as [c|]; simpl.
  - by rewrite (right_id_L ∅ (∪)).
  - destruct a; simpl; [|done]. by rewrite (left_id_L ∅ (∪)).
Qed.

(** ** Validation, level by level *)

Lemma validate_loop_exists ex l acc :
  (∀ c, c ∈ l → is_Some (acc.1 !! TopicConfig.name c)) →
  validate_loop true ex acc l = Ok acc.
Proof.
  destruct acc as [ac issues]. simpl.
  induction l as [|c l IH]; intros Hall; simpl; [done|].
  destruct (Hall c (list_elem_of_here _ _)) as [a Ha]. rewrite Ha.
  rewrite bool_decide_eq_true_2 by (apply elem_of_dom; by eexists). simpl.
  apply IH. intros c' Hc'. apply Hall. by apply list_elem_of_further.
Qed.

Lemma validate_loop_exists_issues ex l ac issues ac' issues' :
  validate_loop true ex (ac, issues) l = Ok (ac', issues') →
  issues' = issues.
Proof.
  revert ac issues. induction l as [|c l IH]; intros ac issues; simpl.
  - by intros [= _ <-].
  - destruct (ac !! TopicConfig.name c) as [a|] eqn:Ha; [|done].
    rewrite bool_decide_eq_true_2 by (apply elem_of_dom; by eexists). simpl.
    apply IH.
Qed.

(** X10: validation at level ["exists"] never reports an issue: for no
    list of topics and no answer of the broker does it raise
    [TopicValidationError].  Whenever every requested name is a key of
    the broker's answer, be it mapped to a configuration or to [None],
    it returns normally. *)
Theorem validate_exists_never_reports st :
  (∀ ts issues,
     (validate_topics ts (Some Level_exists) st).1
     ≠ Raise (TopicValidationError issues))
  ∧ (∀ l,
       l ≠ [] →
       (∀ c, c ∈ l →
          is_Some (inspect_topics (_admin_client st) (TopicConfig.name <$> l)
                     !! TopicConfig.name c)) →
       validate_topics (TopicConfigs l) (Some Level_exists) st = (Ok tt, st)).
Proof.
  split.
  - intros ts issues. unfold validate_topics. run_py.
    destruct (get_topic_configs ts) as [configs|e] eqn:Hc; simpl.
    + destruct (validate_loop _ _ _ configs) as [[ac iss]|e] eqn:E; simpl.
      * apply validate_loop_exists_issues in E as ->. done.
      * apply validate_loop_raises in E as [->|[k' ->]]; done.
    + apply get_topic_configs_raises in Hc as [->|[invalid ->]]; done.
  - intros l Hl Hall. unfold validate_topics. run_py.
    destruct l as [|c l]; [done|]. cbn [get_topic_configs].
    by rewrite validate_loop_exists.
Qed.

Lemma validate_exists_never_reports_witness :
  validate_topics (TopicConfigs [orders_expected; payments_expected])
    (Some Level_exists) (init broker_without_topics 60)
  = (Ok tt, init broker_without_topics 60).
Proof.
  apply (proj2 (validate_exists_never_reports
                  (init broker_without_topics 60))).
  - discriminate.
  - intros c Hc. apply elem_of_dom. vm_compute.
    apply elem_of_cons in Hc as [->|Hc]; [reflexivity|].
    apply elem_of_cons in Hc as [->|Hc]; [reflexivity|].
    by apply elem_of_nil in Hc.
Defined.

Lemma omap_ext_elem {A B} (f g : A → option B) (l : list A) :
  (∀ x, x ∈ l → f x = g x) → omap f l = omap g l.
Proof.
  induction l as [|x l IH]; intros H; csimpl; [done|].
  rewrite (H x) by apply list_elem_of_here.
  rewrite IH; [done|]. intros y Hy. apply H. by apply list_elem_of_further.
Qed.

Lemma issue_of_insert_ne level ac n a c :
  TopicConfig.name c ≠ n →
  issue_of level (<[n := a]> ac) c = issue_of level ac c.
Proof. intros Hne. unfold issue_of. by rewrite lookup_insert_ne. Qed.

(** The loop at the levels ["required"] and ["all"], over topics with
    different names that the broker all has: the issues grow by the
    mismatches, in the order of the topics. *)
Lemma validate_loop_mismatches level l ac issues :
  NoDup (TopicConfig.name <$> l) →
  (∀ c, c ∈ l → ∃ a, ac !! TopicConfig.name c = Some (Some a)) →
  (∀ c, c ∈ l → odict.get (TopicConfig.name c) issues = None) →
  ∃ ac',
    validate_loop false (bool_decide (level = Level_all)) (ac, issues) l
    = Ok (ac', (issues ++ omap (issue_of level ac) l)%list).
Proof.
  revert ac issues.
  induction l as [|c l IH]; intros ac issues Hnd Hall Hfresh; simpl.
  - eexists. by rewrite (right_id_L [] (++)).
  - apply NoDup_cons in Hnd as [Hc Hnd].
    destruct (Hall c (list_elem_of_here _ _)) as [a Ha].
    rewrite Ha.
    rewrite bool_decide_eq_true_2 by (apply elem_of_dom; by eexists). simpl.
    assert (∀ c', c' ∈ l → TopicConfig.name c' ≠ TopicConfig.name c) as Hne.
    { intros c' Hc' Heq. apply Hc. rewrite <-Heq.
      apply list_elem_of_fmap. by exists c'. }
    set (a' := if bool_decide (level = Level_all)
               then TopicConfig.update_extra_config None
                      (Some (dom (TopicConfig.extra_config c))) a
               else TopicConfig.set_extra_config
                      (TopicConfig.extra_config c) a).
    assert (issue_of level ac c
            = if bool_decide (c ≠ a')
              then Some (TopicConfig.name c, Mismatch c a') else None) as Hi.
    { unfold issue_of, adjusted. by rewrite Ha. }
    assert (omap (issue_of level (<[TopicConfig.name c := Some a']> ac)) l
            = omap (issue_of level ac) l) as Hom.
    { apply omap_ext_elem. intros c' Hc'. apply issue_of_insert_ne.
      by apply Hne. }
    assert (∀ c', c' ∈ l →
              ∃ a0, <[TopicConfig.name c := Some a']> ac
                      !! TopicConfig.name c' = Some (Some a0)) as Hall'.
    { intros c' Hc'. rewrite lookup_insert_ne by (apply not_eq_sym; auto).
      apply Hall. by apply list_elem_of_further. }
    rewrite Hi. fold a'. destruct (bool_decide (c ≠ a')) eqn:Hb.
    + destruct (IH (<[TopicConfig.name c := Some a']> ac)
                  (odict.set (TopicConfig.name c) (Mismatch c a') issues)
                  Hnd Hall') as [ac' Hloop].
      { intros c' Hc'.
        rewrite odict_get_set_ne by (apply not_eq_sym; auto).
        apply Hfresh. by apply list_elem_of_further. }
      exists ac'. rewrite Hom in Hloop. rewrite Hloop.
      rewrite odict_set_absent by apply Hfresh, list_elem_of_here.
      by rewrite <-(assoc_L (++)).
    + destruct (IH (<[TopicConfig.name c := Some a']> ac) issues
                  Hnd Hall') as [ac' Hloop].
      { intros c' Hc'. apply Hfresh. by apply list_elem_of_further. }
      exists ac'. rewrite Hom in Hloop. by rewrite Hloop.
Qed.

(** X11: validation at the levels ["required"] and ["all"], for
    topics with different names that the broker all has, reports
    exactly the mismatches, all of them and in the order of the topics:
    it returns normally when no topic differs from what the broker has,
    and otherwise raises one [TopicValidationError] that holds, for
    each topic that differs, the expected configuration and the
    broker's as the comparison saw it.  The manager is left as it
    was. *)
Theorem validate_reports_exactly_mismatches level l st :
  level ≠ Level_exists →
  l ≠ [] →
  NoDup (TopicConfig.name <$> l) →
  (∀ c, c ∈ l →
     ∃ a, inspect_topics (_admin_client st) (TopicConfig.name <$> l)
            !! TopicConfig.name c = Some (Some a)) →
  validate_topics (TopicConfigs l) (Some level) st
  = (match omap (issue_of level
                   (inspect_topics (_admin_client st)
                      (TopicConfig.name <$> l))) l with
     | [] => Ok tt
     | issues => Raise (TopicValidationError issues)
     end, st).
Proof.
  intros Hlevel Hl Hnd Hall. unfold validate_topics. run_py.
  rewrite (bool_decide_eq_false_2 (level = Level_exists)) by done.
  destruct l as [|c0 l0] eqn:El; [done|]. cbn [get_topic_configs].
  rewrite <-El in *.
  destruct (validate_loop_mismatches level l
              (inspect_topics (_admin_client st) (TopicConfig.name <$> l))
              odict.empty Hnd Hall) as [ac' ->]; [done|].
  simpl. by destruct (omap _ l).
Qed.

Lemma validate_reports_exactly_mismatches_witness :
  validate_topics (TopicConfigs [orders_expected; payments_expected])
    (Some Level_required) (init broker_with_two 60)
  = (match omap (issue_of Level_required
                   (inspect_topics broker_with_two
                      (TopicConfig.name
                         <$> [orders_expected; payments_expected])))
             [orders_expected; payments_expected] with
     | [] => Ok tt
     | issues => Raise (TopicValidationError issues)
     end, init broker_with_two 60).
Proof.
  apply (validate_reports_exactly_mismatches Level_required
           [orders_expected; payments_expected] (init broker_with_two 60)).
  - discriminate.
  - discriminate.
  - apply NoDup_cons. split.
    + intros [H|H]%elem_of_cons; [discriminate H | by apply elem_of_nil in H].
    + apply NoDup_singleton.
  - intros c Hc.
    apply elem_of_cons in Hc as [->|Hc]; [eexists; vm_compute; reflexivity|].
    apply elem_of_cons in Hc as [->|Hc]; [eexists; vm_compute; reflexivity|].
    by apply elem_of_nil in Hc.
Defined.

(** The issue the example above reports: ["payments"] is expected with
    6 partitions and has 4; ["orders"] passes at level ["required"]. *)
Lemma validate_required_reports_partitions :
  (validate_topics (TopicConfigs [orders_expected; payments_expected])
     (Some Level_required) (init broker_with_two 60)).1
  = Raise (TopicValidationError
             [("payments",
               Mismatch payments_expected
                 (TopicConfig.mk "payments" 4 1 ∅))]).
Proof. vm_compute. reflexivity. Qed.

(** ** Creating topics *)

(** X12: on a manager without any topic, [all_topic_configs] does not
    return an empty list: [get_topic_configs] reads [topics[0]] and
    raises [IndexError].  So [create_all_topics] raises it, without a
    call to the admin client, and [validate_all_topics] raises it at
    every level, also when no validation is asked for. *)
Theorem no_topics_IndexError st :
  topics st = [] →
  changelog_topics st = [] →
  all_topic_configs st = (Raise IndexError, st)
  ∧ create_all_topics st = (Raise IndexError, st)
  ∧ ∀ level, validate_all_topics level st = (Raise IndexError, st).
Proof.
  intros Ht Hc.
  assert (all_topic_configs st = (Raise IndexError, st)) as Hall.
  { unfold all_topic_configs. run_py. by rewrite Ht, Hc. }
  split_and!; [done| |].
  - unfold create_all_topics, bind. by rewrite Hall.
  - intros level. unfold validate_all_topics, bind. by rewrite Hall.
Qed.

Lemma no_topics_IndexError_witness :
  all_topic_configs (init broker_without_topics 60)
  = (Raise IndexError, init broker_without_topics 60)
  ∧ create_all_topics (init broker_without_topics 60)
    = (Raise IndexError, init broker_without_topics 60)
  ∧ ∀ level,
      validate_all_topics level (init broker_without_topics 60)
      = (Raise IndexError, init broker_without_topics 60).
Proof.
  apply (no_topics_IndexError (init broker_without_topics 60));
    reflexivity.
Defined.

Lemma omap_all_Some {A B} (f : A → option B) (l : list A) :
  Forall (λ x, is_Some (f x)) l → Some <$> omap f l = f <$> l.
Proof.
  induction 1 as [|x l [y Hy] Hl IH]; csimpl; [done|].
  rewrite Hy. csimpl. by rewrite IH.
Qed.

Lemma filter_none {A} (P : A → Prop) `{∀ x, Decision (P x)} (l : list A) :
  Forall (λ x, ¬ P x) l → filter P l = [].
Proof.
  induction 1 as [|x l Hx Hl IH]; [done|].
  by rewrite filter_cons_False.
Qed.

Lemma get_topic_configs_all_configured l :
  l ≠ [] →
  Forall (λ t, is_Some (Topic.topic_config t)) l →
  ∃ configs,
    get_topic_configs (Topics l) = Ok configs
    ∧ Some <$> configs = Topic.topic_config <$> l.
Proof.
  intros Hl Hall. exists (omap Topic.topic_config l).
  split; [|by apply omap_all_Some].
  unfold get_topic_configs. destruct l as [|t l]; [done|].
  assert (filter (λ t, Topic.topic_config t = None) (t :: l) = []) as ->;
    [|done].
  apply filter_none, (Forall_impl _ _ _ Hall).
  by intros t' [c ->].
Qed.

(** X13: when the manager has at least one topic and every topic has a
    configuration, [create_all_topics] makes exactly one call to the
    admin client's [create_topics]: with the configurations of the
    ordinary topics followed by those of the changelog topics, each
    list in registration order, and with the manager's creation
    timeout.  The registries are left as they were. *)
Theorem create_all_topics_calls_admin_once st :
  (topics st ++ changelog_topics st)%list ≠ [] →
  Forall (λ t, is_Some (Topic.topic_config t))
    (topics st ++ changelog_topics st) →
  ∃ configs st',
    create_all_topics st = (Ok tt, st')
    ∧ Some <$> configs
      = Topic.topic_config <$> (topics st ++ changelog_topics st)%list
    ∧ admin_create_topics_calls st'
      = (configs, _create_timeout st) :: admin_create_topics_calls st
    ∧ _topics st' = _topics st
    ∧ _changelog_topics st' = _changelog_topics st.
Proof.
  intros Hne Hall.
  destruct (get_topic_configs_all_configured _ Hne Hall)
    as (configs & Hget & Hconfigs).
  exists configs. eexists. split_and!; [|done|..].
  - unfold create_all_topics, all_topic_configs, _create_topics. run_py.
    by rewrite Hget.
  - done.
  - done.
  - done.
Qed.

Lemma create_all_topics_calls_admin_once_witness :
  ∃ configs st',
    create_all_topics manager_with_orders = (Ok tt, st')
    ∧ Some <$> configs
      = Topic.topic_config
          <$> (topics manager_with_orders
               ++ changelog_topics manager_with_orders)%list
    ∧ admin_create_topics_calls st'
      = (configs, _create_timeout manager_with_orders)
          :: admin_create_topics_calls manager_with_orders
    ∧ _topics st' = _topics manager_with_orders
    ∧ _changelog_topics st' = _changelog_topics manager_with_orders.
Proof.
  apply (create_all_topics_calls_admin_once manager_with_orders).
  - discriminate.
  - apply Forall_cons. split; [by eexists | apply Forall_nil_2].
Defined.

(** ** More on the [apply] step *)

(** X14: the convention "[None] means edited in place" holds for
    mapping values only: when the user function returns [None] and the
    record's value is not a mapping, the step raises
    [InvalidApplyResultType], with and without [expand]. *)
Theorem apply_none_needs_mapping func expand row :
  (func (Row.value row)).1 = PNone →
  is_dict (func (Row.value row)).2 = false →
  streamingdataframes.apply_step func expand row
  = Raise InvalidApplyResultType.
Proof.
  unfold streamingdataframes.apply_step, streamingdataframes.apply.
  destruct (func (Row.value row)) as [res v]. simpl.
  intros -> Hv. simpl. by rewrite Hv.
Qed.

Lemma apply_none_needs_mapping_witness :
  streamingdataframes.apply_step none_func false scalar_row
  = Raise InvalidApplyResultType.
Proof.
  apply (apply_none_needs_mapping none_func false scalar_row);
    reflexivity.
Defined.

(** X15: whenever the [apply] step returns, it returns at least the
    shape of a record: never [None], so it cannot filter; exactly one
    record unless [expand] is set; and every record it returns has the
    key, timestamp, headers, topic, partition and offset of the record
    it was given.  With [expand], a list of [n] results gives [n]
    records, an empty list none. *)
Theorem apply_keeps_provenance func expand row out :
  streamingdataframes.apply_step func expand row = Ok out →
  out ≠ Absent
  ∧ Forall (same_provenance row) (outcome_rows out)
  ∧ (expand = false → ∃ r, out = One r)
  ∧ (∀ l, (func (Row.value row)).1 = PList l →
       length (outcome_rows out) = length l).
Proof.
  unfold streamingdataframes.apply_step, streamingdataframes.apply.
  destruct (func (Row.value row)) as [res v]. simpl.
  destruct row as [v0 k ts h tp pt off]. simpl.
  destruct (is_none res && is_dict v) eqn:Hnone.
  - intros [= <-]. split_and!; [done| |by eexists|].
    + by repeat constructor.
    + intros l ->. done.
  - destruct res; try done.
    + destruct expand; [|done]. intros [= <-]. split_and!; [done| |done|].
      * simpl. apply Forall_fmap, Forall_true. intros r. by repeat split.
      * intros l' [= <-]. simpl. by rewrite length_fmap.
    + intros [= <-]. split_and!; [done| |by eexists|done].
      by repeat constructor.
Qed.

Lemma apply_keeps_provenance_witness :
  ∃ out,
    streamingdataframes.apply_step sample_func true sample_row = Ok out
    ∧ Forall (same_provenance sample_row) (outcome_rows out)
    ∧ length (outcome_rows out) = 2%nat.
Proof.
  destruct (streamingdataframes.apply_step sample_func true sample_row)
    as [out|e] eqn:E; [|vm_compute in E; discriminate E].
  exists out. split; [reflexivity|].
  destruct (apply_keeps_provenance sample_func true sample_row out E)
    as (_ & Hprov & _ & Hlen).
  split; [exact Hprov|]. exact (Hlen _ eq_refl).
Defined.

(** ** The dataframe of the Python client *)

Lemma foldl_set_registry_ok l d0 :
  registry_ok d0 →
  registry_ok (foldl (λ d t, odict.set (Topic.name t) t d) d0 l).
Proof.
  revert d0. induction l as [|t l IH]; intros d0 Hok; simpl; [done|].
  by apply IH, registry_ok_set.
Qed.

Lemma foldl_set_get_other l d0 n :
  n ∉ Topic.name <$> l →
  odict.get n (foldl (λ d t, odict.set (Topic.name t) t d) d0 l)
  = odict.get n d0.
Proof.
  revert d0. induction l as [|t l IH]; intros d0; csimpl; [done|].
  intros [Hne Hn]%not_elem_of_cons.
  rewrite IH by done. by rewrite odict_get_set_ne.
Qed.

Lemma foldl_set_get_present l d0 n :
  n ∈ Topic.name <$> l →
  is_Some (odict.get n (foldl (λ d t, odict.set (Topic.name t) t d) d0 l)).
Proof.
  revert d0. induction l as [|t' l IH]; intros d0; csimpl;
    [by intros ?%elem_of_nil|].
  intros Hin.
  destruct (decide (n ∈ Topic.name <$> l)) as [Hdup|Hnodup]; [by apply IH|].
  apply elem_of_cons in Hin as [->|Hin]; [|done].
  rewrite foldl_set_get_other by done. rewrite odict_get_set_eq.
  by eexists.
Qed.

(** X16: the constructor of the dataframe raises [ValueError] for an
    empty list of topics.  Otherwise it keys the topics by name: every
    topic of the list has an entry under its name, no name has two
    entries, and where several topics of the list have one name the
    last of them is the entry.  The name of the dataframe is the one
    passed, or a new uuid when none (or an empty one) is passed. *)
Theorem dataframe_init_topics uuid topics name p σ :
  (topics = [] →
     (StreamingDataFrame.init uuid topics name p σ).1
     = Raise (ValueError TopicListEmpty))
  ∧ (topics ≠ [] →
       ∃ df,
         (StreamingDataFrame.init uuid topics name p σ).1 = Ok df
         ∧ StreamingDataFrame.name df
           = match name with
             | Some n => if decide (n = EmptyString) then uuid else n
             | None => uuid
             end
         ∧ registry_ok (StreamingDataFrame._topics df)
         ∧ (∀ t, t ∈ topics →
              is_Some (odict.get (Topic.name t)
                         (StreamingDataFrame._topics df)))
         ∧ (∀ l1 t l2, topics = (l1 ++ t :: l2)%list →
              Topic.name t ∉ Topic.name <$> l2 →
              odict.get (Topic.name t) (StreamingDataFrame._topics df)
              = Some t)).
Proof.
  unfold StreamingDataFrame.init. split.
  - intros ->. by destruct p.
  - intros Hne.
    assert (registry_ok (StreamingDataFrame.topics_by_name topics)
            ∧ (∀ t, t ∈ topics →
                 is_Some (odict.get (Topic.name t)
                            (StreamingDataFrame.topics_by_name topics)))
            ∧ (∀ l1 t l2, topics = (l1 ++ t :: l2)%list →
                 Topic.name t ∉ Topic.name <$> l2 →
                 odict.get (Topic.name t)
                   (StreamingDataFrame.topics_by_name topics) = Some t))
      as (Hok & Hall & Hlast).
    { unfold StreamingDataFrame.topics_by_name. split_and!.
      - apply foldl_set_registry_ok, registry_ok_empty.
      - intros t Ht. apply foldl_set_get_present.
        apply list_elem_of_fmap. by exists t.
      - intros l1 t l2 -> Hl2. rewrite foldl_app. simpl.
        rewrite foldl_set_get_other by done. apply odict_get_set_eq. }
    destruct topics as [|t0 l0]; [done|].
    destruct p as [p|]; simpl; eexists; (split; [reflexivity|]); simpl;
      by split_and!.
Qed.

Lemma dataframe_init_topics_witness :
  ∃ df,
    (StreamingDataFrame.init "uuid-1"
       [Topic.mk "orders" None None None None None;
        Topic.mk "orders" (Some "json") None None None None]
       None (Some 0%nat) ∅).1 = Ok df
    ∧ odict.get "orders" (StreamingDataFrame._topics df)
      = Some (Topic.mk "orders" (Some "json") None None None None).
Proof.
  destruct (proj2 (dataframe_init_topics "uuid-1"
                     [Topic.mk "orders" None None None None None;
                      Topic.mk "orders" (Some "json") None None None None]
                     None (Some 0%nat) ∅))
    as (df & Hdf & _ & _ & _ & Hlast); [discriminate|].
  exists df. split; [exact Hdf|].
  apply (Hlast [Topic.mk "orders" None None None None None]
           (Topic.mk "orders" (Some "json") None None None None) []).
  - reflexivity.
  - apply not_elem_of_nil.
Defined.

Lemma foldl_set_values (d d0 : odict.t Topic.t) :
  registry_ok (d0 ++ d)%list →
  foldl (λ d t, odict.set (Topic.name t) t d) d0 (odict.values d)
  = (d0 ++ d)%list.
Proof.
  unfold odict.values. revert d0.
  induction d as [|[k t] d IH]; intros d0 Hok; csimpl.
  - by rewrite (right_id_L [] (++)).
  - assert (Topic.name t = k) as Hk.
    { destruct Hok as [_ Hn]. apply Forall_app in Hn as [_ Hn].
      by apply Forall_cons in Hn as [Hn _]. }
    assert (odict.get k d0 = None) as Hfresh.
    { apply odict_get_None. destruct Hok as [Hwf _].
      unfold odict.wf, odict.keys in *. rewrite fmap_app in Hwf.
      apply NoDup_app in Hwf as (_ & Hdisj & _).
      intros Hin. apply (Hdisj k Hin). csimpl. apply list_elem_of_here. }
    rewrite Hk, odict_set_absent by done.
    rewrite IH; rewrite <-(assoc_L (++)); done.
Qed.

(** X17: [apply] on a dataframe as the constructor builds it (topics
    keyed by their names, at least one) never fails, and the dataframe
    it returns has the same topics, another pipeline than the
    original, and not the original's name but a new uuid. *)
Theorem dataframe_apply_keeps_topics uuid func df (σ : Pipeline.store) :
  registry_ok (StreamingDataFrame._topics df) →
  StreamingDataFrame._topics df ≠ [] →
  ∃ df' σ',
    StreamingDataFrame.apply uuid func df σ = (Ok df', σ')
    ∧ StreamingDataFrame._topics df' = StreamingDataFrame._topics df
    ∧ StreamingDataFrame.name df' = uuid
    ∧ (is_Some (σ !! StreamingDataFrame._pipeline df) →
         StreamingDataFrame._pipeline df'
         ≠ StreamingDataFrame._pipeline df).
Proof.
  intros Hok Hne.
  unfold StreamingDataFrame.apply, StreamingDataFrame._clone,
    StreamingDataFrame.init, StreamingDataFrame._apply, Pipeline.clone.
  destruct (odict.values (StreamingDataFrame._topics df)) as [|t l] eqn:E.
  { destruct (StreamingDataFrame._topics df); [done|].
    unfold odict.values in E. csimpl in E. discriminate E. }
  eexists _, _. split; [reflexivity|]. simpl. split_and!; [|done|].
  - unfold StreamingDataFrame.topics_by_name. rewrite <-E.
    by rewrite (foldl_set_values _ []).
  - intros Hsome Heq. pose proof (is_fresh (dom σ)) as Hf.
    rewrite Heq in Hf. by apply Hf, elem_of_dom.
Qed.

Lemma dataframe_apply_keeps_topics_witness :
  ∃ df' σ',
    StreamingDataFrame.apply "uuid-2" (λ row, Ok (One row))
      (StreamingDataFrame.mk "df"
         0%nat [("orders", Topic.mk "orders" None None None None None)])
      {[ 0%nat := [] ]} = (Ok df', σ')
    ∧ StreamingDataFrame._topics df'
      = [("orders", Topic.mk "orders" None None None None None)]
    ∧ StreamingDataFrame.name df' = "uuid-2".
Proof.
  destruct (dataframe_apply_keeps_topics "uuid-2" (λ row, Ok (One row))
              (StreamingDataFrame.mk "df" 0%nat
                 [("orders", Topic.mk "orders" None None None None None)])
              {[ 0%nat := [] ]})
    as (df' & σ' & Happly & Htopics & Hname & _).
  - split.
    + apply NoDup_singleton.
    + apply Forall_singleton. reflexivity.
  - discriminate.
  - exists df', σ'. split; [exact Happly|]. split; [exact Htopics|].
    exact Hname.
Defined.

(** ** [SlottedClass] *)

Section slotted_facts.
Context {V : Type} (none : V) (ne : V → V → bool).

Lemma eq_slots_spec (self other : SlottedClass.t) slots :
  SlottedClass.eq_slots none ne self other slots = true
  ↔ ∀ p, p ∈ slots →
      ne (SlottedClass.eq_get_attr none self p)
         (SlottedClass.eq_get_attr none other p) = false.
Proof.
  induction slots as [|p slots IH]; simpl.
  - split; [by intros _ p ?%elem_of_nil | done].
  - destruct (ne _ _) eqn:Hne.
    + split; [done|]. intros H.
      by rewrite (H p (list_elem_of_here _ _)) in Hne.
    + rewrite IH. split.
      * intros H q [->|Hq]%elem_of_cons; auto.
      * intros H q Hq. apply H. by apply list_elem_of_further.
Qed.

(** X18: [a == b] on slotted instances holds exactly when no slot of
    the class of [a] holds values that differ in [a] and [b], a slot
    that was never assigned counting as [None].  The slots of the
    class of [b] and all other attributes play no part: an instance of
    a class without slots equals every instance, and an instance whose
    slot holds [None] equals one whose slot was never assigned. *)
Theorem slotted_eq_compares_own_slots (self other : SlottedClass.t) :
  (SlottedClass.__eq__ none ne self other = true
   ↔ ∀ p, p ∈ SlottedClass.__slots__ self →
       ne (SlottedClass.eq_get_attr none self p)
          (SlottedClass.eq_get_attr none other p) = false)
  ∧ (SlottedClass.__slots__ self = [] →
       SlottedClass.__eq__ none ne self other = true)
  ∧ (∀ p,
       ne none none = false →
       SlottedClass.__slots__ self = [p] →
       SlottedClass.attrs self !! p = Some none →
       SlottedClass.attrs other !! p = None →
       SlottedClass.__eq__ none ne self other = true).
Proof.
  unfold SlottedClass.__eq__. split_and!.
  - apply eq_slots_spec.
  - by intros ->.
  - intros p Hnone -> Hself Hother. simpl.
    unfold SlottedClass.eq_get_attr. by rewrite Hself, Hother, Hnone.
Qed.

End slotted_facts.

Lemma slotted_eq_compares_own_slots_witness :
  SlottedClass.__eq__ 0 (λ x y, negb (Z.eqb x y))
    (SlottedClass.mk [] ∅)
    (SlottedClass.mk ["name"] {[ "name" := 7 ]}) = true
  ∧ SlottedClass.__eq__ 0 (λ x y, negb (Z.eqb x y))
      (SlottedClass.mk ["name"] {[ "name" := 7 ]})
      (SlottedClass.mk [] ∅) = false.
Proof.
  split.
  - apply (proj1 (proj2 (slotted_eq_compares_own_slots 0
                           (λ x y, negb (Z.eqb x y))
                           (SlottedClass.mk [] ∅)
                           (SlottedClass.mk ["name"] {[ "name" := 7 ]})))).
    reflexivity.
  - vm_compute. reflexivity.
Defined.

(** ** [StateValue] *)

Section statevalue_facts.
Context {pyfloat pyobject ptr : Type}.
Context (native : @StateValue.Native pyfloat pyobject ptr).

(** X19: boxing a value that is neither a [StateValue] nor a native
    pointer never gives the type [Bool]: a [bool] passes the test
    [isinstance(value, int)], which comes first, and is boxed as [Long]
    through [Constructor2]; the branch for [bool] is never taken.  The
    boxed value is the value passed, except that a [bytearray] is kept
    as [bytes]; the only failure is the one of [pickle.dumps]. *)
Theorem statevalue_plain_never_Bool
    (v : @StateValue.pyvalue pyfloat pyobject ptr) :
  StateValue.is_plain v = true →
  (∀ sv,
     StateValue.init native v = inr sv →
     StateValue.type sv ≠ StateValue.Bool
     ∧ StateValue.value sv = StateValue.to_bytes v)
  ∧ (StateValue.isinstance_bool v = true →
       StateValue.init native v
       = inr (StateValue.mk (StateValue.Constructor2 native v)
                StateValue.Long v))
  ∧ (∀ e, StateValue.init native v = inl e →
       e = StateValue.PyPicklingError
       ∧ StateValue.pickle_dumps native v = None).
Proof.
  intros Hplain. destruct v; try done; simpl; unfold StateValue.init_value;
    simpl; (split_and!; [intros sv|try done|intros e]); try done;
    try (by intros [= <-]).
  - destruct (StateValue.pickle_dumps native _); [|done]. by intros [= <-].
  - destruct (StateValue.pickle_dumps native _); [done|]. by intros [= <-].
Qed.

(** X20: a native value tagged [Object] is accepted only when its
    bytes start with [0x80] and end with ['.'] and [pickle.loads]
    accepts them; the boxed value is then what [pickle.loads] gives.
    Empty bytes raise [IndexError]. *)
Theorem statevalue_object_needs_pickle_frame p :
  StateValue.get_Type native p = Some StateValue.Object →
  (∀ sv,
     StateValue.init native (StateValue.PyPointer p) = inr sv →
     StateValue.first_byte (StateValue.get_BinaryValue native p) = Some 128%N
     ∧ StateValue.last_byte (StateValue.get_BinaryValue native p) = Some 46%N
     ∧ ∃ v,
         StateValue.pickle_loads native (StateValue.get_BinaryValue native p)
         = Some v
         ∧ sv = StateValue.mk p StateValue.Object v)
  ∧ (StateValue.get_BinaryValue native p = [] →
       StateValue.init native (StateValue.PyPointer p)
       = inl StateValue.PyIndexError).
Proof.
  intros Hty. simpl. unfold StateValue.init_pointer. rewrite Hty. split.
  - intros sv. simpl.
    destruct (StateValue.first_byte _) as [b0|] eqn:H0; [|done].
    destruct (N.eqb b0 128) eqn:Hb0; simpl; [|done].
    apply N.eqb_eq in Hb0 as ->.
    destruct (StateValue.last_byte _) as [bn|] eqn:Hn; [|done].
    destruct (N.eqb bn 46) eqn:Hbn; simpl; [|done].
    apply N.eqb_eq in Hbn as ->.
    destruct (StateValue.pickle_loads _ _) as [v|] eqn:Hv; [|done].
    intros [= <-]. split_and!; [done..|]. by exists v.
  - by intros ->.
Qed.

(** X21: an object that is boxed and then read back through its native
    pointer comes back.  Provided the native library keeps the type tag
    and the bytes that [Constructor4] was given, [pickle.dumps] frames
    its output with [0x80] and ['.'], and [pickle.loads] inverts it: for
    a value [v] that is boxed with type [Object], the [StateValue]
    built from the native pointer of [StateValue(v)] has the same
    pointer, type [Object] and value [v]. *)
Theorem statevalue_object_round_trip
    (v : @StateValue.pyvalue pyfloat pyobject ptr) sv :
  (∀ b, StateValue.get_Type native
          (StateValue.Constructor4 native b StateValue.Object)
        = Some StateValue.Object) →
  (∀ b, StateValue.get_BinaryValue native
          (StateValue.Constructor4 native b StateValue.Object) = b) →
  (∀ b, StateValue.pickle_dumps native v = Some b →
        StateValue.first_byte b = Some 128%N
        ∧ StateValue.last_byte b = Some 46%N
        ∧ StateValue.pickle_loads native b = Some v) →
  StateValue.is_plain v = true →
  StateValue.init native v = inr sv →
  StateValue.type sv = StateValue.Object →
  StateValue.init native
    (StateValue.PyPointer (StateValue.get_net_pointer sv))
  = inr (StateValue.mk (StateValue.get_net_pointer sv)
           StateValue.Object v).
Proof.
  intros Hty Hbytes Hpickle Hplain Hinit Hobj.
  assert (∃ b, StateValue.pickle_dumps native v = Some b
               ∧ StateValue.get_net_pointer sv
                 = StateValue.Constructor4 native b StateValue.Object)
    as (b & Hb & ->).
  { destruct v; try discriminate Hplain; simpl in Hinit;
      unfold StateValue.init_value in Hinit; simpl in Hinit;
      try (injection Hinit as <-; discriminate Hobj).
    destruct (StateValue.pickle_dumps native _) as [b|]; [|done].
    injection Hinit as <-. by exists b. }
  destruct (Hpickle b Hb) as (H0 & Hn & Hloads).
  simpl. unfold StateValue.init_pointer.
  rewrite Hty, Hbytes, H0. simpl. rewrite Hn. simpl. by rewrite Hloads.
Qed.

End statevalue_facts.

Lemma statevalue_plain_never_Bool_witness :
  StateValue.init StateValue.sample_native (StateValue.PyBool true)
  = inr (StateValue.mk
           (StateValue.Constructor2 StateValue.sample_native
              (StateValue.PyBool true))
           StateValue.Long (StateValue.PyBool true)).
Proof.
  exact (proj1 (proj2 (statevalue_plain_never_Bool StateValue.sample_native
                         (StateValue.PyBool true) eq_refl)) eq_refl).
Defined.

Lemma statevalue_object_needs_pickle_frame_witness :
  ∃ sv,
    StateValue.init StateValue.sample_native
      (StateValue.PyPointer [Byte.x80; Byte.x2e]) = inr sv
    ∧ StateValue.first_byte
        (StateValue.get_BinaryValue StateValue.sample_native
           [Byte.x80; Byte.x2e])
      = Some 128%N.
Proof.
  destruct (StateValue.init StateValue.sample_native
              (StateValue.PyPointer [Byte.x80; Byte.x2e])) as [e|sv] eqn:E;
    [vm_compute in E; discriminate E|].
  exists sv. split; [reflexivity|].
  exact (proj1 (proj1 (statevalue_object_needs_pickle_frame
                         StateValue.sample_native [Byte.x80; Byte.x2e]
                         eq_refl) sv E)).
Defined.

Lemma statevalue_object_round_trip_witness :
  ∃ sv,
    StateValue.init StateValue.sample_native (StateValue.PyObject tt)
    = inr sv
    ∧ StateValue.init StateValue.sample_native
        (StateValue.PyPointer (StateValue.get_net_pointer sv))
      = inr (StateValue.mk (StateValue.get_net_pointer sv)
               StateValue.Object (StateValue.PyObject tt)).
Proof.
  destruct (StateValue.init StateValue.sample_native
              (StateValue.PyObject tt)) as [e|sv] eqn:E;
    [vm_compute in E; discriminate E|].
  exists sv. split; [reflexivity|].
  apply (statevalue_object_round_trip StateValue.sample_native
           (StateValue.PyObject tt) sv);
    [reflexivity | reflexivity | | reflexivity | exact E | ].
  - intros b [= <-]. by repeat split.
  - vm_compute in E. injection E as <-. reflexivity.
Defined.
